(** * Vault token supervisor of the task runner (client/allocrunnerv2/taskrunner/vault_hook.go)

  A shallow embedding of the Vault hook: the backoff arithmetic of
  [deriveVaultToken], the [tokenFuture] primitive, and the token manager
  [run] as a program in a small monad over a scripted environment.
  The script-check classification exercised by the consul tests is
  embedded last. *)

From Stdlib Require Import ZArith Lia.
From stdpp Require Import base strings list gmap.

Open Scope string_scope.
Open Scope list_scope.

(* ===================================================================== *)
(** ** Fixed-width integers *)
(* ===================================================================== *)

Module Int64.
Open Scope Z_scope.

(** Go's [int], [int64] and [time.Duration] on 64-bit targets: two's
    complement, silently wrapping. *)
Definition wrap (z : Z) : Z := (z + 2 ^ 63) mod 2 ^ 64 - 2 ^ 63.

(** Go's [uint64]. *)
Definition uwrap (z : Z) : Z := z mod 2 ^ 64.

Definition mul (x y : Z) : Z := wrap (x * y).
Definition umul (x y : Z) : Z := uwrap (x * y).

(** [x << s] for a signed 64-bit [x] and an unsigned count [s]: bits
    shifted past the width are dropped, a count of 64 or more leaves 0. *)
Definition shl (x s : Z) : Z :=
  if 64 <=? s then 0 else wrap (Z.shiftl x s).

Definition max_int64 : Z := 2 ^ 63 - 1.
Definition min_int64 : Z := - 2 ^ 63.
End Int64.

(* ===================================================================== *)
(** ** Backoff schedule of [deriveVaultToken] *)
(* ===================================================================== *)

Module Backoff.
Open Scope Z_scope.

(** [time.Duration] counts nanoseconds. *)
Definition Second : Z := 1000000000.
Definition Minute : Z := 60 * Second.

Definition vaultBackoffBaseline : Z := 5 * Second.
Definition vaultBackoffLimit : Z := 3 * Minute.

(** [backoff := (1 << (2 * uint64(attempts))) * vaultBackoffBaseline],
    clamped from above by [vaultBackoffLimit].  The untyped constant 1
    takes the type of the product, [time.Duration]; the shift count is a
    [uint64]. *)
Definition backoff (attempts : Z) : Z :=
  let count := Int64.umul 2 (Int64.uwrap attempts) in
  let b := Int64.mul (Int64.shl 1 count) vaultBackoffBaseline in
  if vaultBackoffLimit <? b then vaultBackoffLimit else b.

(** The schedule written with unbounded integers. *)
Definition ideal_delay (n : Z) : Z :=
  Z.min (vaultBackoffBaseline * 2 ^ (2 * n)) vaultBackoffLimit.
End Backoff.

(* ===================================================================== *)
(** ** tokenFuture *)
(* ===================================================================== *)

Module TokenFuture.

(** A [chan struct{}] is a reference into a channel heap; the only thing
    the future does with a channel is close it, so a heap cell holds the
    closed flag. *)
Abbreviation chan := nat (only parsing).
Abbreviation heap := (list bool) (only parsing).

Definition make_chan (hp : heap) : chan * heap := (length hp, hp ++ [false]).
Definition close_chan (c : chan) (hp : heap) : heap := <[c := true]> hp.

(** A receive from [c] does not block: the handle is ready. *)
Definition ready (c : chan) (hp : heap) : bool := default false (hp !! c).

Record tokenFuture := mkFuture {
  waiting : list chan;
  token : string;
  set : bool
}.

Definition newTokenFuture : tokenFuture :=
  {| waiting := []; token := ""; set := false |}.

Definition Wait (f : tokenFuture) (hp : heap) : chan * tokenFuture * heap :=
  let '(c, hp) := make_chan hp in
  if set f then (c, f, close_chan c hp)
  else (c, {| waiting := waiting f ++ [c]; token := token f; set := set f |}, hp).

Definition Set_ (tok : string) (f : tokenFuture) (hp : heap) : tokenFuture * heap :=
  ({| waiting := []; token := tok; set := true |},
   foldl (fun h w => close_chan w h) hp (waiting f)).

Definition Clear (f : tokenFuture) : tokenFuture :=
  {| waiting := waiting f; token := ""; set := false |}.

Definition Get (f : tokenFuture) : string := token f.

(** Calls made on one future, in the order its mutex serialises them. *)
Inductive op := OWait | OSet (tok : string) | OClear | OGet.

Definition apply (o : op) (s : tokenFuture * heap) : tokenFuture * heap :=
  match o with
  | OWait => let '(_, f, hp) := Wait s.1 s.2 in (f, hp)
  | OSet tok => Set_ tok s.1 s.2
  | OClear => (Clear s.1, s.2)
  | OGet => s
  end.

Definition exec (ops : list op) (s : tokenFuture * heap) : tokenFuture * heap :=
  foldl (fun s o => apply o s) s ops.

Definition is_clear (o : op) : bool := match o with OClear => true | _ => false end.
Definition is_set (o : op) : bool := match o with OSet _ => true | _ => false end.

(** What the interface promises of [Get]: the argument of the last [Set]
    not followed by a [Clear], the empty string otherwise. *)
Definition last_set (ops : list op) : string :=
  foldl (fun acc o => match o with OSet t => t | OClear => "" | _ => acc end) "" ops.

(** Every channel handed out is closed or still in [waiting]. *)
Definition tracked (s : tokenFuture * heap) : Prop :=
  forall c, c < length s.2 -> ready c s.2 = true \/ c ∈ waiting s.1.

(** Closing a closed channel panics, so [Set] may only meet open channels
    in [waiting]. *)
Definition wf (s : tokenFuture * heap) : Prop :=
  Forall (fun c => s.2 !! c = Some false) (waiting s.1) /\ NoDup (waiting s.1).

End TokenFuture.

(* ===================================================================== *)
(** ** The token manager *)
(* ===================================================================== *)

Module Supervisor.
Import TokenFuture.

(** Modelled from the spec: the errors of the issuing client (nomad/structs,
    outside this package) carry two orthogonal classifier bits, queried as
    [structs.IsServerSide(err)] and [structs.IsRecoverable(err)]; [Error] is
    the text that [%v] prints. *)
Record VaultErr := mkErr {
  Error : string;
  IsServerSide : bool;
  IsRecoverable : bool
}.

(** A Go [error] that is only logged or formatted: [None] is [nil]. *)
Definition error := option string.

(** [os.Signal], by number. *)
Definition Signal := nat.

(** Modelled from the spec: the change modes of [structs.Vault]
    (nomad/structs, outside this package): signal, restart and noop.  The
    field is a string, so other values can reach the switch. *)
Definition VaultChangeModeNoop : string := "noop".
Definition VaultChangeModeSignal : string := "signal".
Definition VaultChangeModeRestart : string := "restart".

Record Vault := mkVault {
  ChangeMode : string;
  ChangeSignal : string;
  Env : bool
}.

(** The fields of [vaultHook] that [run] reads and never writes. *)
Record vaultHook := mkHook {
  vaultStanza : Vault;
  tokenPath : string;
  alloc : string;
  taskName : string
}.

(** What the collaborators answer, one entry per blocking call or select,
    in the order the manager gets to them. *)
Inductive Reply :=
| RCtxDone (done : bool)
    (* [select { case <-h.ctx.Done(): ... default: }] at the loop head *)
| RDeriveToken (res : gmap string string + VaultErr)
| RBackoff (fired : bool)
    (* [select] of [ctx.Done()] and [time.After(backoff)]: true, the timer *)
| RWriteFile (err : error)
| RRenewToken (err : error)
| RSignal (err : error)
| RRenewCh (ev : option error)
    (* [select] of [renewCh] and [ctx.Done()]: [Some err], a receive from
       [renewCh] ([Some None] when the channel was closed); [None], done *)
| RStopRenewToken (err : error).

(** The calls the manager makes on its collaborators, with their results. *)
Inductive Event :=
| EDeriveToken (alloc : string) (tasks : list string)
    (res : gmap string string + VaultErr)
| ERenewToken (token : string) (increment : Z) (err : error)
| EStopRenewToken (token : string) (err : error)
| EWriteFile (path data : string) (perm : Z) (err : error)
| ETimeAfter (d : Z)
| EKill (source reason : string) (fail : bool)
| ESignal (source reason : string) (s : Signal) (err : error)
| ERestart (source reason : string) (failure : bool)
| EUpdatedVaultToken (token : string)
| ELogError (msg : string)
| ELogWarn (msg : string).

Record World := mkWorld {
  script : list Reply;
  trace : list Event;
  future : tokenFuture;
  chans : heap
}.

(** A computation either returns, or is left waiting for an answer the
    script does not hold, or has used up its loop budget. *)
Inductive Res (A : Type) :=
| Val (a : A)
| Blocked
| OutOfFuel.
Arguments Val {A} a.
Arguments Blocked {A}.
Arguments OutOfFuel {A}.

Definition M (A : Type) : Type := World -> Res A * World.

Definition ret {A} (a : A) : M A := fun w => (Val a, w).

Definition bind {A B} (m : M A) (k : A -> M B) : M B :=
  fun w =>
    match m w with
    | (Val a, w') => k a w'
    | (Blocked, w') => (Blocked, w')
    | (OutOfFuel, w') => (OutOfFuel, w')
    end.

Notation "x <- c ;; k" := (bind c (fun x => k))
  (at level 100, c at next level, right associativity).
Notation "c ;;; k" := (bind c (fun _ => k))
  (at level 100, right associativity).

Definition out_of_fuel {A} : M A := fun w => (OutOfFuel, w).

Definition emit (e : Event) : M unit :=
  fun w => (Val tt, {| script := script w; trace := trace w ++ [e];
                       future := future w; chans := chans w |}).

(** Take the next answer when it is of the kind asked for. *)
Definition answer {A} (sel : Reply -> option A) : M A :=
  fun w =>
    match script w with
    | r :: rest =>
        match sel r with
        | Some a => (Val a, {| script := rest; trace := trace w;
                               future := future w; chans := chans w |})
        | None => (Blocked, w)
        end
    | [] => (Blocked, w)
    end.

(** *** Collaborators *)

(** A call that waits for its answer: the answer is taken from the script
    and the completed call is recorded. *)
Definition call {A} (sel : Reply -> option A) (ev : A -> Event) : M A :=
  res <- answer sel ;;
  emit (ev res) ;;;
  ret res.

Definition ctx_done : M bool :=
  answer (fun r => match r with RCtxDone b => Some b | _ => None end).

Definition client_DeriveToken (al : string) (tasks : list string)
  : M (gmap string string + VaultErr) :=
  call (fun r => match r with RDeriveToken x => Some x | _ => None end)
       (EDeriveToken al tasks).

Definition client_RenewToken (token : string) (increment : Z) : M error :=
  call (fun r => match r with RRenewToken x => Some x | _ => None end)
       (ERenewToken token increment).

Definition client_StopRenewToken (token : string) : M error :=
  call (fun r => match r with RStopRenewToken x => Some x | _ => None end)
       (EStopRenewToken token).

Definition ioutil_WriteFile (path data : string) (perm : Z) : M error :=
  call (fun r => match r with RWriteFile x => Some x | _ => None end)
       (EWriteFile path data perm).

Definition lifecycle_Signal (source reason : string) (s : Signal) : M error :=
  call (fun r => match r with RSignal x => Some x | _ => None end)
       (ESignal source reason s).

Definition lifecycle_Kill (source reason : string) (fail : bool) : M unit :=
  emit (EKill source reason fail).

Definition lifecycle_Restart (source reason : string) (failure : bool) : M unit :=
  emit (ERestart source reason failure).

Definition updater_updatedVaultToken (token : string) : M unit :=
  emit (EUpdatedVaultToken token).

(** The structured key/value arguments of the logger are left out. *)
Definition logger_Error (msg : string) : M unit := emit (ELogError msg).
Definition logger_Warn (msg : string) : M unit := emit (ELogWarn msg).

Definition time_After (d : Z) : M unit := emit (ETimeAfter d).

Definition select_backoff : M bool :=
  answer (fun r => match r with RBackoff b => Some b | _ => None end).

Definition select_renewCh : M (option error) :=
  answer (fun r => match r with RRenewCh x => Some x | _ => None end).

(** *** The future of the hook *)

Definition future_Get : M string := fun w => (Val (Get (future w)), w).

Definition future_Clear : M unit :=
  fun w => (Val tt, {| script := script w; trace := trace w;
                       future := Clear (future w); chans := chans w |}).

Definition future_Set (token : string) : M unit :=
  fun w =>
    let '(f, hp) := Set_ token (future w) (chans w) in
    (Val tt, {| script := script w; trace := trace w; future := f; chans := hp |}).

(** *** The hook *)

Section Hook.

(** [signals.Parse] of consul-template: a signal, or the error text. *)
Variable signals_Parse : string -> Signal + string.
Variable h : vaultHook.

(** The [stopRenewal] closure of [run]. *)
Definition stopRenewal : M unit :=
  tok <- future_Get ;;
  err <- client_StopRenewToken tok ;;
  match err with
  | Some _ => logger_Warn "failed to stop token renewal"
  | None => ret tt
  end.

Definition writeToken (token : string) : M error :=
  err <- ioutil_WriteFile (tokenPath h) token 511 ;;
  match err with
  | Some e => ret (Some ("failed to write vault token: " +:+ e))
  | None => ret None
  end.

(** The [for] loop of [deriveVaultToken]; [attempts] is a Go [int]. *)
Fixpoint deriveVaultToken_loop (fuel : nat) (attempts : Z) : M (string * bool) :=
  match fuel with
  | O => out_of_fuel
  | S fuel =>
      res <- client_DeriveToken (alloc h) [taskName h] ;;
      match res with
      | inl tokens => ret (default "" (tokens !! taskName h), false)
      | inr err =>
          if IsServerSide err then
            logger_Error "failed to derive Vault token" ;;;
            lifecycle_Kill "vault"
              ("server error deriving vault token: " +:+ Error err) true ;;;
            ret ("", true)
          else if negb (IsRecoverable err) then
            logger_Error "failed to derive Vault token" ;;;
            lifecycle_Kill "vault"
              ("failed to derive token: " +:+ Error err) true ;;;
            ret ("", true)
          else
            let backoff := Backoff.backoff attempts in
            logger_Error "failed to derive Vault token" ;;;
            let attempts := Int64.wrap (attempts + 1) in
            time_After backoff ;;;
            fired <- select_backoff ;;
            if fired then deriveVaultToken_loop fuel attempts
            else ret ("", true)
      end
  end.

Definition deriveVaultToken (fuel : nat) : M (string * bool) :=
  deriveVaultToken_loop fuel 0.

(** [run], the branch [if token == ""]: derive and persist.  [None]: [run]
    returns. *)
Definition obtainToken (fuel : nat) (token : string) : M (option string) :=
  if decide (token = "") then
    r <- deriveVaultToken fuel ;;
    let '(token, exit) := r in
    if exit then ret None
    else
      err <- writeToken token ;;
      match err with
      | Some _ =>
          let errorString := "failed to write Vault token to disk" in
          logger_Error errorString ;;;
          lifecycle_Kill "vault" errorString true ;;;
          ret None
      | None => ret (Some token)
      end
  else ret (Some token).

(** [run], the body of [if updatedToken] up to the reset of the flag and the
    call of the handler.  [true]: [run] returns. *)
Definition applyChangeMode (token : string) : M bool :=
  let mode := ChangeMode (vaultStanza h) in
  if decide (mode = VaultChangeModeSignal) then
    match signals_Parse (ChangeSignal (vaultStanza h)) with
    | inr e =>
        logger_Error "failed to parse signal" ;;;
        lifecycle_Kill "vault" ("failed to parse signal: " +:+ e) true ;;;
        ret true
    | inl s =>
        err <- lifecycle_Signal "vault" "new Vault token acquired" s ;;
        match err with
        | Some e =>
            logger_Error "failed to send signal" ;;;
            lifecycle_Kill "vault" ("failed to send signal: " +:+ e) true ;;;
            ret true
        | None =>
            updater_updatedVaultToken token ;;;
            ret false
        end
    end
  else if decide (mode = VaultChangeModeRestart) then
    lifecycle_Restart "vault" "new Vault token acquired" false ;;;
    updater_updatedVaultToken token ;;;
    ret false
  else
    logger_Error "invalid Vault change mode" ;;;
    updater_updatedVaultToken token ;;;
    ret false.

(** [run], the final [select]: the next loop state, or [None] when [run]
    returns. *)
Definition watchRenewal (updatedToken : bool) : M (option (string * bool)) :=
  ev <- select_renewCh ;;
  match ev with
  | Some _ =>
      logger_Error "failed to renew Vault token" ;;;
      stopRenewal ;;;
      if decide (ChangeMode (vaultStanza h) <> VaultChangeModeNoop)
      then ret (Some ("", true))
      else ret (Some ("", updatedToken))
  | None =>
      stopRenewal ;;;
      ret None
  end.

(** [run], from [RenewToken] to the end of the loop body. *)
Definition renewToken (token : string) (updatedToken : bool)
  : M (option (string * bool)) :=
  err <- client_RenewToken token 30 ;;
  match err with
  | Some _ =>
      logger_Error "failed to start renewal of Vault token" ;;;
      ret (Some ("", updatedToken))
  | None =>
      future_Set token ;;;
      if updatedToken then
        exit <- applyChangeMode token ;;
        if exit then ret None else watchRenewal false
      else watchRenewal updatedToken
  end.

(** One pass through the [OUTER] loop of [run], on the loop state
    [(token, updatedToken)]. *)
Definition iteration (fuel : nat) (token : string) (updatedToken : bool)
  : M (option (string * bool)) :=
  done <- ctx_done ;;
  if done then
    stopRenewal ;;;
    ret None
  else
    future_Clear ;;;
    ot <- obtainToken fuel token ;;
    match ot with
    | None => ret None
    | Some token => renewToken token updatedToken
    end.

Fixpoint run_loop (fuel dfuel : nat) (token : string) (updatedToken : bool)
  : M unit :=
  match fuel with
  | O => out_of_fuel
  | S fuel =>
      next <- iteration dfuel token updatedToken ;;
      match next with
      | None => ret tt
      | Some (token, updatedToken) => run_loop fuel dfuel token updatedToken
      end
  end.

(** [run(token)].  Every pass of either loop takes an answer from the
    script, so one more pass than the script has entries is budget enough
    ([run_fuel] below). *)
Definition run (token : string) : M unit :=
  fun w =>
    let n := S (length (script w)) in
    run_loop n n token false w.

End Hook.

(** [k] recoverable failures of [DeriveToken] in a row, each waited out. *)
Fixpoint retry_script (err : VaultErr) (k : nat) : list Reply :=
  match k with
  | O => []
  | S k => RDeriveToken (inr err) :: RBackoff true :: retry_script err k
  end.

(** What [deriveVaultToken] does about them, from attempt [a] on. *)
Fixpoint retry_trace (h : vaultHook) (err : VaultErr) (a : Z) (k : nat)
  : list Event :=
  match k with
  | O => []
  | S k =>
      [ EDeriveToken (alloc h) [taskName h] (inr err);
        ELogError "failed to derive Vault token";
        ETimeAfter (Backoff.backoff a) ]
      ++ retry_trace h err (a + 1) k
  end.

(** A fresh hook, as [newVaultHook] leaves it, facing a scripted
    environment. *)
Definition init (sc : list Reply) : World :=
  {| script := sc; trace := []; future := newTokenFuture; chans := [] |}.

(** *** Reading a trace *)

Fixpoint count (p : Event -> bool) (tr : list Event) : nat :=
  match tr with
  | [] => 0
  | e :: tr => (if p e then 1 else 0) + count p tr
  end.

(** [DeriveToken] returned without error. *)
Definition is_derived (e : Event) : bool :=
  match e with
  | EDeriveToken _ _ (inl _) => true
  | _ => false
  end.

(** The first effect of the change-mode switch of [run]: the signal sent or
    the complaint that it does not parse, the restart, or the complaint
    about the mode.  Nothing else in [run] has these effects. *)
Definition is_reaction (e : Event) : bool :=
  match e with
  | ESignal _ _ _ _ => true
  | ERestart _ _ _ => true
  | ELogError msg =>
      bool_decide (msg = "failed to parse signal")
      || bool_decide (msg = "invalid Vault change mode")
  | _ => false
  end.

(** An event arrived on [renewCh]: the renewal of the token failed. *)
Definition is_renew_failure (e : Event) : bool :=
  match e with
  | ELogError msg => bool_decide (msg = "failed to renew Vault token")
  | _ => false
  end.

Definition is_sleep (e : Event) : bool :=
  match e with
  | ETimeAfter _ => true
  | _ => false
  end.

Definition is_stop (e : Event) : bool :=
  match e with
  | EStopRenewToken _ _ => true
  | _ => false
  end.

Definition derived (w : World) : nat := count is_derived (trace w).
Definition reacted (w : World) : nat := count is_reaction (trace w).
Definition renew_failures (w : World) : nat := count is_renew_failure (trace w).

(** [w'] is [w] after [r] reactions, [d] derivations and [f] renewal
    failures, with no answer put back on the script. *)
Definition moved (w w' : World) (r d f : nat) : Prop :=
  reacted w' = reacted w + r
  /\ derived w' = derived w + d
  /\ renew_failures w' = renew_failures w + f
  /\ length (script w') <= length (script w).

(** The kills asked of the lifecycle, in order: reason and failure flag. *)
Fixpoint kills (tr : list Event) : list (string * bool) :=
  match tr with
  | [] => []
  | EKill _ reason fail :: tr => (reason, fail) :: kills tr
  | _ :: tr => kills tr
  end.

(** The delays handed to [time.After], in order. *)
Fixpoint sleeps (tr : list Event) : list Z :=
  match tr with
  | [] => []
  | ETimeAfter d :: tr => d :: sleeps tr
  | _ :: tr => sleeps tr
  end.

(** [w'] continues the trace of [w]. *)
Definition extends (w w' : World) : Prop :=
  exists evs, trace w' = trace w ++ evs.

(** A computation that only ever adds to the trace. *)
Definition grows {A} (m : M A) : Prop :=
  forall w r w', m w = (r, w') -> extends w w'.

(** A computation that leaves the future and the channels alone. *)
Definition keeps {A} (m : M A) : Prop :=
  forall w r w', m w = (r, w') -> future w' = future w /\ chans w' = chans w.

(** The world with the script advanced. *)
Definition consume (w : World) (rest : list Reply) : World :=
  {| script := rest; trace := trace w; future := future w; chans := chans w |}.

(** The world after further events and with the script advanced. *)
Definition advance (w : World) (evs : list Event) (rest : list Reply) : World :=
  {| script := rest; trace := trace w ++ evs;
     future := future w; chans := chans w |}.

End Supervisor.

(* ===================================================================== *)
(** ** What a run may do, event by event *)
(* ===================================================================== *)

Module Protocol.
Import TokenFuture Supervisor.

(** The token of the last [RenewToken] that returned without error. *)
Definition last_started (tr : list Event) : option string :=
  foldl (fun acc e =>
           match e with
           | ERenewToken tok _ None => Some tok
           | _ => acc
           end) None tr.

Definition is_kill (e : Event) : bool :=
  match e with
  | EKill _ _ _ => true
  | _ => false
  end.

Definition starts (e : Event) : bool :=
  match e with
  | ERenewToken _ _ None => true
  | _ => false
  end.

(** Before position [i] of a trace, the renewal started last is that of
    [tok]. *)
Definition started_at (tr : list Event) (i : nat) (tok : string) : Prop :=
  exists j inc,
    j < i /\ tr !! j = Some (ERenewToken tok inc None)
    /\ forall k e, j < k < i -> tr !! k = Some e -> starts e = false.

(** No kill has been asked for yet. *)
Definition alive (w : World) : Prop := kills (trace w) = [].

(** The hook as [newVaultHook] leaves it (some callers may already wait on
    the future), with nothing done yet. *)
Definition fresh (w : World) : Prop :=
  trace w = [] /\ set (future w) = false /\ token (future w) = "".

(** The future holds the token whose renewal was started last, or none. *)
Definition published (w : World) : Prop :=
  if set (future w)
  then last_started (trace w) = Some (token (future w))
  else token (future w) = "".

(** A computation that, unless it is left waiting before any call, makes a
    call of kind [P] first. *)
Definition opens_with {A} (P : Event -> Prop) (m : M A) : Prop :=
  forall w r w',
    m w = (r, w') ->
    (r = Blocked /\ trace w' = trace w)
    \/ exists e evs, trace w' = trace w ++ e :: evs /\ P e.

Section Expected.

Variable signals_Parse : string -> Signal + string.
Variable h : vaultHook.

(** The token [run] was called with. *)
Variable seed : string.

(** Why the task is killed: the failed call [prev], the message logged
    about it and the reason handed to [Kill]. *)
Definition kill_cause (prev : Event) (msg reason : string) : Prop :=
  match prev with
  | EDeriveToken _ _ (inr err) =>
      msg = "failed to derive Vault token"
      /\ ((IsServerSide err = true
           /\ reason = "server error deriving vault token: " +:+ Error err)
          \/ (IsServerSide err = false /\ IsRecoverable err = false
              /\ reason = "failed to derive token: " +:+ Error err))
  | EWriteFile _ _ _ (Some _) =>
      msg = "failed to write Vault token to disk"
      /\ reason = "failed to write Vault token to disk"
  | ERenewToken _ _ None =>
      msg = "failed to parse signal"
      /\ ChangeMode (vaultStanza h) = VaultChangeModeSignal
      /\ exists perr,
           signals_Parse (ChangeSignal (vaultStanza h)) = inr perr
           /\ reason = "failed to parse signal: " +:+ perr
  | ESignal _ _ _ (Some e) =>
      msg = "failed to send signal"
      /\ reason = "failed to send signal: " +:+ e
  | _ => False
  end.

(** What holds of a call of the manager, given the calls before it. *)
Definition shape (hist : list Event) (e : Event) : Prop :=
  match e with
  | EDeriveToken al tasks _ => al = alloc h /\ tasks = [taskName h]
  | ERenewToken tok inc _ =>
      inc = 30%Z
      /\ ((hist = [] /\ tok = seed /\ seed <> "")
          \/ last hist = Some (EWriteFile (tokenPath h) tok 511 None))
  | EStopRenewToken tok _ => tok = "" \/ last_started hist = Some tok
  | EWriteFile path data perm _ =>
      path = tokenPath h /\ perm = 511%Z
      /\ exists tokens,
           last hist = Some (EDeriveToken (alloc h) [taskName h] (inl tokens))
           /\ data = default "" (tokens !! taskName h)
  | ETimeAfter d => (d <= Backoff.vaultBackoffLimit)%Z
  | EKill source reason fail =>
      source = "vault" /\ fail = true
      /\ exists before prev msg,
           hist = before ++ [prev; ELogError msg]
           /\ kill_cause prev msg reason
  | ESignal source reason s _ =>
      source = "vault" /\ reason = "new Vault token acquired"
      /\ ChangeMode (vaultStanza h) = VaultChangeModeSignal
      /\ signals_Parse (ChangeSignal (vaultStanza h)) = inl s
  | ERestart source reason failure =>
      source = "vault" /\ reason = "new Vault token acquired"
      /\ failure = false
      /\ ChangeMode (vaultStanza h) = VaultChangeModeRestart
  | EUpdatedVaultToken tok =>
      last_started hist = Some tok
      /\ ChangeMode (vaultStanza h) <> VaultChangeModeNoop
  | ELogError msg =>
      msg = "invalid Vault change mode" ->
      ChangeMode (vaultStanza h) <> VaultChangeModeSignal
      /\ ChangeMode (vaultStanza h) <> VaultChangeModeRestart
      /\ ChangeMode (vaultStanza h) <> VaultChangeModeNoop
  | ELogWarn _ => True
  end.

Definition expected (hist : list Event) (e : Event) : Prop :=
  kills hist = [] /\ shape hist e.

(** Every call of a trace was expected where it stands. *)
Definition hist_ok (tr : list Event) : Prop :=
  forall i e, tr !! i = Some e -> expected (take i tr) e.

Definition Inv (w : World) : Prop := hist_ok (trace w) /\ published w.

End Expected.

End Protocol.

(* ===================================================================== *)
(** ** A pass that reaches [RenewToken] *)
(* ===================================================================== *)

(** The pass of the loop of [run] that holds [tok] at the loop head and
    gets to [RenewToken] without a retry: the hook is not cancelled and,
    when [tok] is empty, [DeriveToken] returns [tokens] and the token is
    written. *)
Module Pass.
Import Supervisor.

Section Obtain.

Variable h : vaultHook.




End Obtain.

End Pass.

(* ===================================================================== *)
(** ** Scenarios *)
(* ===================================================================== *)

(** The fixtures of the scenarios below: a task "t" of allocation "alloc",
    a signal table that knows SIGHUP, and single-entry answers of the
    issuing client. *)
Module Scenario.
Import Supervisor.

Definition parse (s : string) : Signal + string :=
  if decide (s = "SIGHUP") then inl 1 else inr ("unknown signal " +:+ s).

Definition hook (mode sig : string) : vaultHook :=
  {| vaultStanza := {| ChangeMode := mode; ChangeSignal := sig; Env := true |};
     tokenPath := "/secrets/vault_token";
     alloc := "alloc";
     taskName := "t" |}.

Definition tokens (tok : string) : gmap string string := {[ "t" := tok ]}.

Definition unavailable : VaultErr :=
  {| Error := "vault unavailable"; IsServerSide := false; IsRecoverable := true |}.

Definition denied : VaultErr :=
  {| Error := "permission denied"; IsServerSide := false; IsRecoverable := false |}.

Definition internal : VaultErr :=
  {| Error := "boom"; IsServerSide := true; IsRecoverable := true |}.

(** S3 of the spec: the renewal of "tok-1" fails, "tok-2" is derived and
    SIGHUP is sent; then the hook is stopped. *)
Definition S3 : list Reply :=
  [ RCtxDone false; RDeriveToken (inl (tokens "tok-1")); RWriteFile None;
    RRenewToken None; RRenewCh (Some (Some "lease expired"));
    RStopRenewToken None;
    RCtxDone false; RDeriveToken (inl (tokens "tok-2")); RWriteFile None;
    RRenewToken None; RSignal None; RRenewCh None; RStopRenewToken None ].


(** A token recovered from disk is renewed, its renewal fails, and the
    first derivation of the run succeeds. *)
Definition recovered_then_rotated : list Reply :=
  [ RCtxDone false; RRenewToken None; RRenewCh (Some (Some "lease expired"));
    RStopRenewToken None;
    RCtxDone false; RDeriveToken (inl (tokens "tok-2")); RWriteFile None;
    RRenewToken None ].

(** [DeriveToken] succeeds with a map that has no entry for the task. *)
Definition missing_entry : list Reply :=
  [ RCtxDone false; RDeriveToken (inl ∅); RWriteFile None; RRenewToken None ].

(** The derived token cannot be written. *)
Definition write_failure : list Reply :=
  [ RCtxDone false; RDeriveToken (inl (tokens "tok-1"));
    RWriteFile (Some "disk full"); RRenewToken None ].

End Scenario.

(* ===================================================================== *)
(** ** Script checks *)
(* ===================================================================== *)

Module ScriptCheck.
Open Scope Z_scope.

(** The check states of the consul API that the tests compare with. *)
Inductive Health := HealthPassing | HealthWarning | HealthCritical.

#[global] Instance Health_eq_dec : EqDecision Health.
Proof. solve_decision. Defined.

(** Modelled from the spec: the classification step of the script check
    loop (its file is not part of this tree, only its tests are).  An
    executor error reports critical with the error text; otherwise exit code
    0 is passing, 1 is warning, and the output is the raw stdout.  The spec
    names the codes 0, 1 and those from 2 up; every code other than 0 and 1
    is taken as critical here. *)
Definition classify (stdout : string) (code : Z) (err : option string)
  : string * Health :=
  match err with
  | Some e => (e, HealthCritical)
  | None =>
      (stdout,
       if code =? 0 then HealthPassing
       else if code =? 1 then HealthWarning
       else HealthCritical)
  end.

(** The rows of [TestConsulScript_Exec_Codes]: code, error, expected state. *)
Definition Exec_Codes : list (Z * option string * Health) :=
  [ (0, None, HealthPassing);
    (1, None, HealthWarning);
    (2, None, HealthCritical);
    (9000, None, HealthCritical);
    (0, Some "test error", HealthCritical);
    (1, Some "test error", HealthCritical);
    (2, Some "test error", HealthCritical);
    (9000, Some "test error", HealthCritical) ].

(** The assertion the test makes on one row, [stdout] standing for what
    [simpleExec] printed. *)
Definition row_ok (stdout : string) (row : Z * option string * Health) : bool :=
  let '(code, err, expected) := row in
  let '(output, status) := classify stdout code err in
  bool_decide (status = expected)
  && bool_decide (output = match err with Some e => e | None => stdout end).

End ScriptCheck.

(* ===================================================================== *)
(** * Properties *)
(* ===================================================================== *)

(** ** Fixed-width arithmetic and the backoff schedule *)

Section BackoffFacts.
Import Int64 Backoff.
Open Scope Z_scope.

Lemma wrap_range z : min_int64 <= wrap z <= max_int64.
Proof.
  unfold wrap, min_int64, max_int64.
  pose proof (Z.mod_pos_bound (z + 2 ^ 63) (2 ^ 64) ltac:(lia)). lia.
Qed.

Lemma wrap_small z : min_int64 <= z <= max_int64 -> wrap z = z.
Proof.
  unfold wrap, min_int64, max_int64. intros Hz.
  rewrite Z.mod_small; lia.
Qed.

Lemma uwrap_small z : 0 <= z < 2 ^ 64 -> uwrap z = z.
Proof. intros Hz. unfold uwrap. apply Z.mod_small. lia. Qed.

(** The clamp does bound the delay from above, whatever the product
    wrapped to. *)
Lemma backoff_le_limit attempts : backoff attempts <= vaultBackoffLimit.
Proof.
  unfold backoff. cbv zeta.
  destruct (Z.ltb_spec vaultBackoffLimit
              (mul (shl 1 (umul 2 (uwrap attempts))) vaultBackoffBaseline)); lia.
Qed.

Lemma backoff_first : backoff 0 = 5 * Second.
Proof. reflexivity. Qed.

(** Up to the sixteenth retry the product fits or wraps to something still
    above the limit, and the delay is the intended one. *)
Lemma backoff_ideal_upto_16 n : 0 <= n <= 16 -> backoff n = ideal_delay n.
Proof.
  intros Hn.
  assert (Hcases : Exists (fun k => n = k) (Z.of_nat <$> seq 0 17)).
  { apply Exists_exists. exists n. split; [|done].
    apply list_elem_of_fmap. exists (Z.to_nat n). split; [lia|].
    apply elem_of_seq. lia. }
  cbn in Hcases.
  repeat (apply Exists_cons in Hcases as [-> | Hcases]; [vm_compute; reflexivity|]).
  by apply Exists_nil in Hcases.
Qed.

(** From the thirty-second retry on the shift count reaches the width of
    the integer and the delay is zero. *)
Lemma backoff_zero_from_32 n : 32 <= n <= max_int64 -> backoff n = 0.
Proof.
  unfold max_int64. intros Hn. unfold backoff. cbv zeta.
  rewrite (uwrap_small n) by lia.
  unfold umul. rewrite uwrap_small by lia.
  unfold shl. destruct (Z.leb_spec 64 (2 * n)); [|lia].
  reflexivity.
Qed.

(** C4: at the eighteenth failed attempt (index 17) the product
    [2^34 * 5s] has wrapped to a negative duration, which the clamp lets
    through; the schedule [min(5s * 2^(2n), 3min)] asks for three minutes
    there. *)
Theorem backoff_overflow_at_17 :
  backoff 17 = -6334374448547758080
  /\ ideal_delay 17 = vaultBackoffLimit
  /\ backoff 17 <> ideal_delay 17.
Proof. repeat split; vm_compute; congruence. Qed.

End BackoffFacts.

(** ** The script check classification *)

Section ScriptCheckFacts.
Import ScriptCheck.
Open Scope Z_scope.

(** The model passes every row of [TestConsulScript_Exec_Codes]. *)
Lemma Exec_Codes_pass stdout : forallb (row_ok stdout) Exec_Codes = true.
Proof.
  unfold Exec_Codes, forallb, row_ok, classify. cbn.
  rewrite !bool_decide_eq_true_2 by reflexivity. reflexivity.
Qed.

(** C9: an executor error gives critical with the error text as output;
    without an error, exit code 0 gives passing, 1 gives warning and any
    code from 2 up gives critical, with the raw stdout as output. *)
Theorem classify_status stdout code :
  (forall e, classify stdout code (Some e) = (e, HealthCritical))
  /\ (code = 0 -> classify stdout code None = (stdout, HealthPassing))
  /\ (code = 1 -> classify stdout code None = (stdout, HealthWarning))
  /\ (2 <= code -> classify stdout code None = (stdout, HealthCritical)).
Proof.
  repeat split.
  - intros ->. reflexivity.
  - intros ->. reflexivity.
  - intros Hc. unfold classify.
    destruct (Z.eqb_spec code 0); [lia|].
    destruct (Z.eqb_spec code 1); [lia|]. reflexivity.
Qed.

Lemma classify_status_witness :
  classify "out" 0 (Some "test error") = ("test error", HealthCritical)
  /\ classify "out" 0 None = ("out", HealthPassing)
  /\ classify "out" 1 None = ("out", HealthWarning)
  /\ classify "out" 9000 None = ("out", HealthCritical).
Proof.
  split; [apply (classify_status "out" 0)|].
  split; [apply (classify_status "out" 0); reflexivity|].
  split; [apply (classify_status "out" 1); reflexivity|].
  apply (classify_status "out" 9000). lia.
Defined.

End ScriptCheckFacts.

(** ** The token future *)

Section TokenFutureFacts.
Import TokenFuture.

Lemma ready_lookup c hp : ready c hp = true <-> hp !! c = Some true.
Proof.
  unfold ready. destruct (hp !! c) as [[]|]; simpl; split; congruence.
Qed.

Lemma close_chan_length c hp : length (close_chan c hp) = length hp.
Proof. apply length_insert. Qed.

Lemma close_chan_ready c hp : c < length hp -> ready c (close_chan c hp) = true.
Proof.
  intros Hc. apply ready_lookup. unfold close_chan.
  by apply list_lookup_insert_eq.
Qed.

(** A closed channel stays closed. *)
Lemma ready_close c c' hp : ready c hp = true -> ready c (close_chan c' hp) = true.
Proof.
  rewrite !ready_lookup. intros Hc. unfold close_chan.
  destruct (decide (c' = c)) as [->|Hne].
  - apply list_lookup_insert_eq. by eapply lookup_lt_Some.
  - by rewrite list_lookup_insert_ne.
Qed.

Lemma ready_close_all c ws hp :
  ready c hp = true -> ready c (foldl (fun h w => close_chan w h) hp ws) = true.
Proof.
  revert hp. induction ws as [|w ws IH]; intros hp Hc; simpl; [done|].
  apply IH. by apply ready_close.
Qed.

Lemma close_all_length ws hp :
  length (foldl (fun h w => close_chan w h) hp ws) = length hp.
Proof.
  revert hp. induction ws as [|w ws IH]; intros hp; simpl; [done|].
  by rewrite IH, close_chan_length.
Qed.

Lemma close_all_ready c ws hp :
  c ∈ ws -> c < length hp ->
  ready c (foldl (fun h w => close_chan w h) hp ws) = true.
Proof.
  revert hp. induction ws as [|w ws IH]; intros hp Hin Hlt; simpl.
  - by apply elem_of_nil in Hin.
  - apply elem_of_cons in Hin as [->|Hin].
    + apply ready_close_all. by apply close_chan_ready.
    + apply IH; [done|]. by rewrite close_chan_length.
Qed.

Lemma ready_grow c hp x : ready c hp = true -> ready c (hp ++ [x]) = true.
Proof.
  rewrite !ready_lookup. intros Hc. by apply lookup_app_l_Some.
Qed.

(** No operation un-readies a handle that was ready. *)
Lemma ready_apply o s c : ready c s.2 = true -> ready c (apply o s).2 = true.
Proof.
  destruct s as [f hp]. simpl. intros Hc.
  destruct o as [|tok| |]; simpl; try done.
  - unfold Wait, make_chan. destruct (set f); simpl.
    + apply ready_close. by apply ready_grow.
    + by apply ready_grow.
  - by apply ready_close_all.
Qed.

Lemma ready_exec ops s c : ready c s.2 = true -> ready c (exec ops s).2 = true.
Proof.
  revert s. induction ops as [|o ops IH]; intros s Hc; simpl; [done|].
  apply IH. by apply ready_apply.
Qed.

Lemma set_kept ops s :
  forallb (fun o => negb (is_clear o)) ops = true ->
  set s.1 = true -> set (exec ops s).1 = true.
Proof.
  revert s. induction ops as [|o ops IH]; intros s Hops Hs; simpl in *; [done|].
  apply andb_prop in Hops as [Ho Hops].
  apply IH; [done|]. destruct s as [f hp].
  destruct o; simpl in *; try done.
  unfold Wait, make_chan. by rewrite Hs.
Qed.

Lemma Wait_set f hp : set f = true -> ready (Wait f hp).1.1 (Wait f hp).2 = true.
Proof.
  intros Hs. unfold Wait, make_chan. rewrite Hs. simpl.
  apply close_chan_ready. rewrite length_app. simpl. lia.
Qed.

Lemma Wait_unset f hp :
  set f = false ->
  Wait f hp = (length hp,
               {| waiting := waiting f ++ [length hp]; token := token f; set := false |},
               hp ++ [false]).
Proof. intros Hs. unfold Wait, make_chan. by rewrite Hs. Qed.

(** While the future is not set, a pending handle stays pending. *)
Lemma pending_kept ops s c :
  forallb (fun o => negb (is_set o)) ops = true ->
  set s.1 = false -> c ∈ waiting s.1 -> s.2 !! c = Some false ->
  set (exec ops s).1 = false /\ c ∈ waiting (exec ops s).1
  /\ (exec ops s).2 !! c = Some false.
Proof.
  revert s. induction ops as [|o ops IH]; intros s Hops Hs Hin Hc; simpl in *; [done|].
  apply andb_prop in Hops as [Ho Hops].
  destruct s as [f hp]. simpl in *.
  apply IH; [done|..]; destruct o; simpl in *; try done;
    rewrite ?Wait_unset by done; simpl; try done.
  - apply elem_of_app. by left.
  - by apply lookup_app_l_Some.
Qed.

Lemma token_exec ops s :
  token (exec ops s).1
  = foldl (fun acc o => match o with OSet t => t | OClear => "" | _ => acc end)
      (token s.1) ops.
Proof.
  revert s. induction ops as [|o ops IH]; intros s; simpl; [done|].
  rewrite IH. f_equal. destruct s as [f hp].
  destruct o; simpl; try done.
  unfold Wait, make_chan. by destruct (set f).
Qed.

(** [Set] only ever closes open channels: the channels in [waiting] are
    distinct and open, in every state the operations lead to. *)
Lemma wf_new hp : wf (newTokenFuture, hp).
Proof. split; simpl; [constructor | apply NoDup_nil_2]. Qed.

Lemma wf_apply o s : wf s -> wf (apply o s).
Proof.
  destruct s as [f hp]. intros [Hopen Hnd]. simpl in *.
  destruct o as [|tok| |]; simpl; try done.
  - unfold Wait, make_chan. destruct (set f) eqn:Hs; simpl.
    + split; [|done]. simpl.
      eapply Forall_impl; [exact Hopen|]. intros c Hc. simpl in Hc.
      unfold close_chan. rewrite list_lookup_insert_ne.
      * by apply lookup_app_l_Some.
      * apply lookup_lt_Some in Hc. lia.
    + split; simpl.
      * apply Forall_app. split.
        -- eapply Forall_impl; [exact Hopen|]. intros c Hc.
           by apply lookup_app_l_Some.
        -- constructor; [|constructor]. by apply list_lookup_middle.
      * apply NoDup_app. split; [done|]. split; [|apply NoDup_singleton].
        intros c Hin Hc. apply list_elem_of_singleton in Hc as ->.
        rewrite Forall_forall in Hopen. apply Hopen in Hin.
        apply lookup_lt_Some in Hin. lia.
  - split; simpl; [constructor | apply NoDup_nil_2].
Qed.

(** C8: the one-shot contract of the future.  A [Wait] made after a [Set]
    with no [Clear] in between returns a ready handle; no operation, [Clear]
    included, takes readiness away from a handle; a [Wait] made after a
    [Clear] and before the next [Set] returns a handle that is not ready and
    stays so until that [Set], which readies it; and [Get] returns the
    argument of the last [Set] not followed by a [Clear], the empty string
    otherwise. *)
Theorem tokenFuture_contract :
  (forall s t ops,
      forallb (fun o => negb (is_clear o)) ops = true ->
      let s1 := exec ops (apply (OSet t) s) in
      ready (Wait s1.1 s1.2).1.1 (Wait s1.1 s1.2).2 = true)
  /\ (forall s ops c, ready c s.2 = true -> ready c (exec (OClear :: ops) s).2 = true)
  /\ (forall s ops ops' t,
        forallb (fun o => negb (is_set o)) ops = true ->
        forallb (fun o => negb (is_set o)) ops' = true ->
        let s1 := exec ops (apply OClear s) in
        let c := (Wait s1.1 s1.2).1.1 in
        let s2 := exec ops' (apply OWait s1) in
        ready c s2.2 = false /\ ready c (apply (OSet t) s2).2 = true)
  /\ (forall hp ops, Get (exec ops (newTokenFuture, hp)).1 = last_set ops).
Proof.
  split; [|split; [|split]].
  - intros s t ops Hops s1. apply Wait_set.
    subst s1. by apply set_kept.
  - intros s ops c Hc. by apply ready_exec.
  - intros [f hp] ops ops' t Hops Hops' s1 c s2.
    assert (Hs1 : set s1.1 = false).
    { subst s1. clear -Hops. simpl.
      assert (Hgen : forall s, set s.1 = false -> set (exec ops s).1 = false).
      { induction ops as [|o ops IH]; intros s Hs; simpl in *; [done|].
        apply andb_prop in Hops as [Ho Hops]. apply IH; [done|].
        destruct s as [f' hp']. destruct o; simpl in *; try done.
        by rewrite Wait_unset. }
      by apply Hgen. }
    destruct s1 as [f1 hp1]. simpl in Hs1.
    subst c s2. simpl. rewrite Wait_unset by done. simpl.
    destruct (pending_kept ops'
                ({| waiting := waiting f1 ++ [length hp1]; token := token f1;
                    set := false |}, hp1 ++ [false]) (length hp1))
      as (_ & Hin & Hc); simpl; try done.
    { apply elem_of_app. right. by apply list_elem_of_singleton. }
    { by apply list_lookup_middle. }
    split.
    + unfold ready. by rewrite Hc.
    + apply close_all_ready; [done|]. by eapply lookup_lt_Some.
  - intros hp ops. unfold Get, last_set. by rewrite token_exec.
Qed.

Lemma tokenFuture_contract_witness :
  let s0 := (newTokenFuture, [] : heap) in
  (let s1 := exec [OWait; OGet] (apply (OSet "tok-A") s0) in
   ready (Wait s1.1 s1.2).1.1 (Wait s1.1 s1.2).2 = true)
  /\ ready 0 (exec [OClear; OWait] (newTokenFuture, [true])).2 = true
  /\ (let s1 := exec [OGet] (apply OClear s0) in
      let c := (Wait s1.1 s1.2).1.1 in
      let s2 := exec [OWait; OClear] (apply OWait s1) in
      ready c s2.2 = false /\ ready c (apply (OSet "tok-B") s2).2 = true)
  /\ Get (exec [OSet "tok-A"; OWait; OClear; OSet "tok-B"; OGet] s0).1 = "tok-B".
Proof.
  destruct tokenFuture_contract as (H1 & H2 & H3 & H4).
  intros s0. split; [|split; [|split]].
  - apply (H1 s0 "tok-A" [OWait; OGet]). reflexivity.
  - apply (H2 (newTokenFuture, [true]) [OWait] 0). reflexivity.
  - apply (H3 s0 [OGet] [OWait; OClear] "tok-B"); reflexivity.
  - apply (H4 [] [OSet "tok-A"; OWait; OClear; OSet "tok-B"; OGet]).
Defined.

End TokenFutureFacts.

(** ** The token manager *)

Section SupervisorFacts.
Import Supervisor TokenFuture Protocol Pass.

Variable signals_Parse : string -> Signal + string.
Variable h : vaultHook.

Lemma count_app p l1 l2 : count p (l1 ++ l2) = count p l1 + count p l2.
Proof. induction l1 as [|e l1 IH]; simpl; [done|]. rewrite IH. lia. Qed.

(** What a stretch of events adds to the three counters. *)
Lemma counters_app w w' evs :
  trace w' = trace w ++ evs ->
  reacted w' = reacted w + count is_reaction evs
  /\ derived w' = derived w + count is_derived evs
  /\ renew_failures w' = renew_failures w + count is_renew_failure evs.
Proof.
  intros Ht. unfold reacted, derived, renew_failures.
  by rewrite Ht, !count_app.
Qed.

Lemma counters_same w w' :
  trace w' = trace w ->
  reacted w' = reacted w /\ derived w' = derived w
  /\ renew_failures w' = renew_failures w.
Proof. intros Ht. unfold reacted, derived, renew_failures. by rewrite Ht. Qed.

(** *** The primitives *)

Lemma answer_inv {A} (sel : Reply -> option A) w r w' :
  answer sel w = (r, w') ->
  trace w' = trace w /\ future w' = future w /\ chans w' = chans w
  /\ ((r = Blocked /\ w' = w)
      \/ exists x rest a,
           script w = x :: rest /\ sel x = Some a /\ r = Val a /\ script w' = rest).
Proof.
  unfold answer. intros Ha.
  destruct (script w) as [|x rest] eqn:Hs.
  - injection Ha as <- <-. repeat split; auto.
  - destruct (sel x) as [a|] eqn:Hx; injection Ha as <- <-; simpl.
    + repeat split; auto. right. by exists x, rest, a.
    + repeat split; auto.
Qed.

Lemma emit_inv e w r w' :
  emit e w = (r, w') ->
  r = Val tt /\ trace w' = trace w ++ [e] /\ script w' = script w
  /\ future w' = future w /\ chans w' = chans w.
Proof. unfold emit. intros He. by injection He as <- <-. Qed.

Lemma call_inv {A} (sel : Reply -> option A) (ev : A -> Event) w r w' :
  call sel ev w = (r, w') ->
  future w' = future w /\ chans w' = chans w
  /\ ((r = Blocked /\ w' = w)
      \/ exists x rest a,
           script w = x :: rest /\ sel x = Some a /\ r = Val a
           /\ trace w' = trace w ++ [ev a] /\ script w' = rest).
Proof.
  unfold call, bind. intros Hc.
  destruct (answer sel w) as [[a| |] w1] eqn:Ha;
    apply answer_inv in Ha as (Ht & Hf & Hh & [[Hr ->] | (x & rest & a' & Hs & Hx & Hr & Hs')]);
    try discriminate; try (injection Hc as <- <-; by auto).
  injection Hr as ->. simpl in Hc. injection Hc as <- <-. simpl.
  repeat split; auto. right. exists x, rest, a'. by rewrite Ht.
Qed.

(** The script only shrinks, by one entry per answer. *)
Lemma call_script {A} (sel : Reply -> option A) ev w r w' :
  call sel ev w = (r, w') ->
  r <> OutOfFuel /\ length (script w') <= length (script w)
  /\ (forall a, r = Val a -> S (length (script w')) = length (script w)).
Proof.
  intros Hc. apply call_inv in Hc as (_ & _ & [[-> ->] | (x & rest & a & Hs & _ & -> & _ & Hs')]).
  - repeat split; try done.
  - rewrite Hs, Hs'. simpl. repeat split; try done; lia.
Qed.

Lemma answer_script {A} (sel : Reply -> option A) w r w' :
  answer sel w = (r, w') ->
  r <> OutOfFuel /\ length (script w') <= length (script w)
  /\ (forall a, r = Val a -> S (length (script w')) = length (script w)).
Proof.
  intros Hc. apply answer_inv in Hc as (_ & _ & _ & [[-> ->] | (x & rest & a & Hs & _ & -> & Hs')]).
  - repeat split; try done.
  - rewrite Hs, Hs'. simpl. repeat split; try done; lia.
Qed.

(** *** How each piece of [run] moves the counters *)

Lemma moved_refl w : moved w w 0 0 0.
Proof. unfold moved. repeat split; lia. Qed.

Lemma moved_trans w w1 w2 r1 d1 f1 r2 d2 f2 :
  moved w w1 r1 d1 f1 -> moved w1 w2 r2 d2 f2 ->
  moved w w2 (r1 + r2) (d1 + d2) (f1 + f2).
Proof. unfold moved. intros (?&?&?&?) (?&?&?&?). repeat split; lia. Qed.

Ltac eval_flags H :=
  repeat match type of H with
    | context [is_reaction ?e] =>
        let v := eval vm_compute in (is_reaction e) in
        change (is_reaction e) with v in H
    | context [is_renew_failure ?e] =>
        let v := eval vm_compute in (is_renew_failure e) in
        change (is_renew_failure e) with v in H
    end.

Lemma emit_moved e w r w' :
  emit e w = (r, w') ->
  r = Val tt
  /\ moved w w' (Nat.b2n (is_reaction e)) (Nat.b2n (is_derived e))
       (Nat.b2n (is_renew_failure e))
  /\ script w' = script w.
Proof.
  intros He. apply emit_inv in He as (-> & Ht & Hs & _).
  apply counters_app in Ht as (HR & HD & HF). simpl in HR, HD, HF.
  unfold moved, Nat.b2n. rewrite Hs.
  repeat split; try done;
    [destruct (is_reaction e) | destruct (is_derived e)
     | destruct (is_renew_failure e)]; lia.
Qed.

Lemma call_moved {A} (sel : Reply -> option A) ev w r w' :
  call sel ev w = (r, w') ->
  (r = Blocked /\ w' = w)
  \/ exists a,
       r = Val a
       /\ moved w w' (Nat.b2n (is_reaction (ev a))) (Nat.b2n (is_derived (ev a)))
            (Nat.b2n (is_renew_failure (ev a)))
       /\ S (length (script w')) = length (script w).
Proof.
  intros Hc. pose proof (call_script _ _ _ _ _ Hc) as (_ & Hle & Hlt).
  apply call_inv in Hc as (_ & _ & [[-> ->] | (x & rest & a & Hs & _ & -> & Ht & Hs')]);
    [by left|].
  right. exists a. split; [done|]. split; [|by apply (Hlt a)].
  apply counters_app in Ht as (HR & HD & HF). simpl in HR, HD, HF.
  unfold moved, Nat.b2n.
  repeat split; try done;
    [destruct (is_reaction (ev a)) | destruct (is_derived (ev a))
     | destruct (is_renew_failure (ev a))]; lia.
Qed.

Lemma answer_moved {A} (sel : Reply -> option A) w r w' :
  answer sel w = (r, w') ->
  (r = Blocked /\ w' = w)
  \/ exists a, r = Val a /\ moved w w' 0 0 0
               /\ S (length (script w')) = length (script w).
Proof.
  intros Hc. pose proof (answer_script _ _ _ _ Hc) as (_ & Hle & Hlt).
  apply answer_inv in Hc as (Ht & _ & _ & [[-> ->] | (x & rest & a & Hs & _ & -> & Hs')]);
    [by left|].
  right. exists a. split; [done|]. split; [|by apply (Hlt a)].
  apply counters_same in Ht as (HR & HD & HF).
  unfold moved. repeat split; lia.
Qed.

(** Open the outermost [bind] of a run [H : (x <- m ;; k) w = _]. *)
Ltac step H E x :=
  match type of H with
  | bind ?m ?k ?st = _ =>
      unfold bind in H at 1;
      destruct (m st) as [[x| |] ?w] eqn:E;
      [ | try (injection H as <- <-) | try (injection H as <- <-) ]
  end.

Lemma stopRenewal_moved w r w' :
  stopRenewal w = (r, w') -> moved w w' 0 0 0 /\ r <> OutOfFuel.
Proof.
  unfold stopRenewal. intros H.
  unfold bind at 1, future_Get in H.
  step H E err.
  - apply call_moved in E as [[? ?] | (err' & Hr & Hm & _)]; [done|].
    injection Hr as <-. simpl in Hm.
    destruct err as [e|].
    + apply emit_moved in H as (-> & Hm' & _). eval_flags Hm'. simpl in Hm'.
      split; [|done]. exact (moved_trans _ _ _ _ _ _ _ _ _ Hm Hm').
    + injection H as <- <-. by split.
  - apply call_moved in E as [[_ ->] | (err & Hr & _)]; [|done].
    split; [apply moved_refl | done].
  - apply call_moved in E as [[? _] | (err & ? & _)]; done.
Qed.

(** Open a [bind] whose first computation only records an event. *)
Ltac step_emit H Hm :=
  let E := fresh "E" in
  let u := fresh "done_" in
  step H E u;
  unfold logger_Error, logger_Warn, lifecycle_Kill, lifecycle_Restart,
    updater_updatedVaultToken, time_After in E;
  [ apply emit_moved in E as (_ & Hm & _); eval_flags Hm; simpl in Hm
  | apply emit_inv in E as (? & _); discriminate .. ].

Ltac split_moved :=
  unfold moved in *;
  repeat match goal with
    | H : _ /\ _ |- _ => destruct H
    end.

Lemma deriveVaultToken_loop_moved fuel attempts w r w' :
  deriveVaultToken_loop h fuel attempts w = (r, w') ->
  reacted w' = reacted w /\ renew_failures w' = renew_failures w
  /\ length (script w') <= length (script w)
  /\ (length (script w) < fuel -> r <> OutOfFuel)
  /\ match r with
     | Val (tok, false) =>
         derived w' = derived w + 1 /\ length (script w') < length (script w)
     | Val (tok, true) => tok = "" /\ derived w' = derived w
     | _ => derived w' = derived w
     end.
Proof.
  revert attempts w r w'.
  induction fuel as [|fuel IH]; intros attempts w r w' H; simpl in H.
  { injection H as <- <-. repeat split; try done. lia. }
  step H E res.
  2-3: apply call_moved in E as [[? ->] | (? & ? & _)]; try done;
       repeat split; try done.
  apply call_moved in E as [[? _] | (res' & Hr & Hm & HL)]; [done|].
  injection Hr as <-. destruct res as [tokens|err]; simpl in Hm.
  - injection H as <- <-. split_moved. repeat split; try done; lia.
  - destruct (IsServerSide err); [|destruct (IsRecoverable err); simpl in H].
    + step_emit H Hm1. step_emit H Hm2. injection H as <- <-.
      split_moved. repeat split; try done; lia.
    + step_emit H Hm1. step_emit H Hm2.
      step H E fired.
      * apply answer_moved in E as [[? _] | (fired' & Hr & Hm3 & HL3)]; [done|].
        injection Hr as <-. destruct fired.
        -- apply IH in H as (HR & HF & HLe & Hfuel & Hres).
           split_moved. repeat split; try lia.
           ++ intros Hlt. apply Hfuel. lia.
           ++ destruct r as [[tok []]| |]; repeat split; intuition lia.
        -- injection H as <- <-. split_moved. repeat split; try done; lia.
      * apply answer_moved in E as [[_ ->] | (? & ? & _)]; [|done].
        split_moved. repeat split; try done; lia.
      * apply answer_moved in E as [[? _] | (? & ? & _)]; done.
    + step_emit H Hm1. step_emit H Hm2. injection H as <- <-.
      split_moved. repeat split; try done; lia.
Qed.

Lemma future_Set_inv tok w r w' :
  future_Set tok w = (r, w') ->
  r = Val tt /\ trace w' = trace w /\ script w' = script w
  /\ future w' = (Set_ tok (future w) (chans w)).1.
Proof. unfold future_Set. simpl. intros H. by injection H as <- <-. Qed.

Lemma future_Clear_inv w r w' :
  future_Clear w = (r, w') ->
  r = Val tt /\ trace w' = trace w /\ script w' = script w
  /\ future w' = Clear (future w) /\ chans w' = chans w.
Proof. unfold future_Clear. intros H. by injection H as <- <-. Qed.

Lemma quiet_moved w w' :
  trace w' = trace w -> script w' = script w -> moved w w' 0 0 0.
Proof.
  intros Ht Hs. apply counters_same in Ht as (?&?&?).
  unfold moved. rewrite Hs. split_and!; lia.
Qed.

Lemma writeToken_moved tok w r w' :
  writeToken h tok w = (r, w') ->
  (r = Blocked /\ w' = w)
  \/ exists e, r = Val e /\ moved w w' 0 0 0
               /\ S (length (script w')) = length (script w).
Proof.
  unfold writeToken. intros H. step H E err.
  - apply call_moved in E as [[? _] | (err' & Hr & Hm & HL)]; [done|].
    injection Hr as <-. simpl in Hm. right.
    destruct err; injection H as <- <-; eauto.
  - apply call_moved in E as [[_ ->] | (? & ? & _)]; [by left | done].
  - apply call_moved in E as [[? _] | (? & ? & _)]; done.
Qed.

Lemma obtainToken_moved dfuel tok w r w' :
  obtainToken h dfuel tok w = (r, w') ->
  reacted w' = reacted w /\ renew_failures w' = renew_failures w
  /\ length (script w') <= length (script w)
  /\ (length (script w) < dfuel -> r <> OutOfFuel)
  /\ exists d,
       derived w' = derived w + d /\ d <= 1
       /\ (tok <> "" -> d = 0 /\ r = Val (Some tok) /\ w' = w)
       /\ (tok = "" -> forall t, r = Val (Some t) ->
           d = 1 /\ length (script w') < length (script w)).
Proof.
  unfold obtainToken. intros H.
  destruct (decide (tok = "")) as [->|Hne].
  2: { injection H as <- <-. split_and!; try done. exists 0.
       split_and!; try done; lia. }
  step H E res.
  - apply deriveVaultToken_loop_moved in E as (HR & HF & HL & _ & Hres).
    destruct res as [t [|]].
    + destruct Hres as [-> HD]. injection H as <- <-.
      split_and!; try done. exists 0. split_and!; try done; lia.
    + destruct Hres as [HD HL']. step H E2 err.
      * apply writeToken_moved in E2 as [[? _] | (e & Hr & Hm & HL2)]; [done|].
        injection Hr as <-. destruct err as [e|].
        -- step_emit H Hm1. step_emit H Hm2. injection H as <- <-.
           split_moved. split_and!; try done; try lia.
           exists 1. split_and!; try done; lia.
        -- injection H as <- <-. split_moved. split_and!; try done; try lia.
           exists 1. split_and!; try done; lia.
      * apply writeToken_moved in E2 as [[_ ->] | (? & ? & _)]; [|done].
        split_and!; try done; try lia. exists 1. split_and!; try done; lia.
      * apply writeToken_moved in E2 as [[? _] | (? & ? & _)]; done.
  - apply deriveVaultToken_loop_moved in E as (HR & HF & HL & _ & Hres).
    split_and!; try done. exists 0. split_and!; try done; lia.
  - apply deriveVaultToken_loop_moved in E as (HR & HF & HL & Hfuel & Hres).
    split_and!; [done|done|done|intros Hlt; by destruct (Hfuel Hlt)|].
    exists 0. split_and!; try done; lia.
Qed.

Lemma applyChangeMode_moved tok w r w' :
  applyChangeMode signals_Parse h tok w = (r, w') ->
  derived w' = derived w /\ renew_failures w' = renew_failures w
  /\ length (script w') <= length (script w) /\ r <> OutOfFuel
  /\ exists n, reacted w' = reacted w + n /\ n <= 1
               /\ (forall b, r = Val b -> n = 1).
Proof.
  unfold applyChangeMode. intros H.
  destruct (decide (ChangeMode (vaultStanza h) = VaultChangeModeSignal)) as [Hsig|Hsig];
    [|destruct (decide (ChangeMode (vaultStanza h) = VaultChangeModeRestart)) as [Hre|Hre]].
  - destruct (signals_Parse (ChangeSignal (vaultStanza h))) as [s|e].
    + step H E err.
      * apply call_moved in E as [[? _] | (err' & Hr & Hm & HL)]; [done|].
        injection Hr as <-. simpl in Hm. destruct err as [e|].
        -- step_emit H Hm1. step_emit H Hm2. injection H as <- <-.
           split_moved. split_and!; try done; try lia.
           exists 1. split_and!; try done; lia.
        -- step_emit H Hm1. injection H as <- <-.
           split_moved. split_and!; try done; try lia.
           exists 1. split_and!; try done; lia.
      * apply call_moved in E as [[_ ->] | (? & ? & _)]; [|done].
        split_and!; try done. exists 0. split_and!; try done; lia.
      * apply call_moved in E as [[? _] | (? & ? & _)]; done.
    + step_emit H Hm1. step_emit H Hm2. injection H as <- <-.
      split_moved. split_and!; try done; try lia.
      exists 1. split_and!; try done; lia.
  - step_emit H Hm1. step_emit H Hm2. injection H as <- <-.
    split_moved. split_and!; try done; try lia.
    exists 1. split_and!; try done; lia.
  - step_emit H Hm1. step_emit H Hm2. injection H as <- <-.
    split_moved. split_and!; try done; try lia.
    exists 1. split_and!; try done; lia.
Qed.

Lemma watchRenewal_moved upd w r w' :
  watchRenewal h upd w = (r, w') ->
  reacted w' = reacted w /\ derived w' = derived w
  /\ length (script w') <= length (script w) /\ r <> OutOfFuel
  /\ exists f,
       renew_failures w' = renew_failures w + f /\ f <= 1
       /\ (forall t u, r = Val (Some (t, u)) ->
           t = "" /\ f = 1 /\ length (script w') < length (script w)
           /\ u = if decide (ChangeMode (vaultStanza h) <> VaultChangeModeNoop)
                  then true else upd).
Proof.
  unfold watchRenewal. intros H. step H E ev.
  - apply answer_moved in E as [[? _] | (ev' & Hr & Hm & HL)]; [done|].
    injection Hr as <-. destruct ev as [err|].
    + step_emit H Hm1. step H E2 v.
      * apply stopRenewal_moved in E2 as [Hm2 _].
        destruct (decide (ChangeMode (vaultStanza h) <> VaultChangeModeNoop));
          injection H as <- <-; split_moved; split_and!; try done; try lia;
          exists 1; split_and!; try lia;
          intros t u' [= <- <-]; split_and!; try done; lia.
      * apply stopRenewal_moved in E2 as [Hm2 _].
        split_moved; split_and!; try done; try lia.
        exists 1. split_and!; try done; lia.
      * by apply stopRenewal_moved in E2 as [_ ?].
    + step H E2 v.
      * apply stopRenewal_moved in E2 as [Hm2 _]. injection H as <- <-.
        split_moved; split_and!; try done; try lia.
        exists 0. split_and!; try done; lia.
      * apply stopRenewal_moved in E2 as [Hm2 _].
        split_moved; split_and!; try done; try lia.
        exists 0. split_and!; try done; lia.
      * by apply stopRenewal_moved in E2 as [_ ?].
  - apply answer_moved in E as [[_ ->] | (? & ? & _)]; [|done].
    split_and!; try done. exists 0. split_and!; try done; lia.
  - apply answer_moved in E as [[? _] | (? & ? & _)]; done.
Qed.

(** From [RenewToken] on, one pass reacts at most once, and only when a
    rotation is pending; whenever it returns to the loop head it has
    conserved [reacted + pending - renew_failures] (up to the noop mode,
    which drops a failure). *)
Lemma renewToken_moved tok upd w r w' :
  renewToken signals_Parse h tok upd w = (r, w') ->
  derived w' = derived w
  /\ length (script w') <= length (script w) /\ r <> OutOfFuel
  /\ exists n f,
       reacted w' = reacted w + n /\ renew_failures w' = renew_failures w + f
       /\ n <= Nat.b2n upd /\ f <= 1 /\ (f = 1 -> n = Nat.b2n upd)
       /\ (forall t u, r = Val (Some (t, u)) ->
           t = "" /\ length (script w') < length (script w)
           /\ n + Nat.b2n u <= f + Nat.b2n upd
           /\ (ChangeMode (vaultStanza h) <> VaultChangeModeNoop ->
               n + Nat.b2n u = f + Nat.b2n upd)).
Proof.
  unfold renewToken. intros H. step H E err.
  2: { apply call_moved in E as [[_ ->] | (? & ? & _)]; [|done].
       split_and!; try done. exists 0, 0. split_and!; try done; lia. }
  2: { apply call_moved in E as [[? _] | (? & ? & _)]; done. }
  apply call_moved in E as [[? _] | (err' & Hr & Hm & HL)]; [done|].
  injection Hr as <-. simpl in Hm. destruct err as [e|].
  { step_emit H Hm1. injection H as <- <-.
    split_moved. split_and!; try done; try lia.
    exists 0, 0. split_and!; try lia.
    intros t u [= <- <-]. split_and!; try done; lia. }
  step H E1 v.
  2-3: apply future_Set_inv in E1 as (? & _); done.
  apply future_Set_inv in E1 as (_ & Ht & Hs & _).
  pose proof (quiet_moved _ _ Ht Hs) as Hm1.
  destruct upd.
  - step H E2 exit.
    + apply applyChangeMode_moved in E2 as (HD & HF & HL2 & _ & n & HR & Hn & Hval).
      specialize (Hval exit eq_refl) as ->.
      destruct exit.
      * injection H as <- <-. split_moved. split_and!; try done; try lia.
        exists 1, 0. simpl. split_and!; try done; lia.
      * apply watchRenewal_moved in H as (HR3 & HD3 & HL3 & Hfuel & f & HF3 & Hf & Hnext).
        split_moved. split_and!; try done; try lia.
        exists 1, f. simpl. split_and!; try done; try lia.
        intros t u ->. destruct (Hnext t u eq_refl) as (-> & -> & HL4 & ->).
        split_and!; try done; try lia.
        -- destruct (decide _); simpl; lia.
        -- intros Hne. destruct (decide _); [simpl; lia | done].
    + apply applyChangeMode_moved in E2 as (HD & HF & HL2 & _ & n & HR & Hn & _).
      split_moved. split_and!; try done; try lia.
      exists n, 0. simpl. split_and!; try done; lia.
    + by apply applyChangeMode_moved in E2 as (_ & _ & _ & ? & _).
  - apply watchRenewal_moved in H as (HR3 & HD3 & HL3 & Hfuel & f & HF3 & Hf & Hnext).
    split_moved. split_and!; try done; try lia.
    exists 0, f. simpl. split_and!; try done; try lia.
    intros t u ->. destruct (Hnext t u eq_refl) as (-> & -> & HL4 & ->).
    split_and!; try done; try lia.
    + destruct (decide _); simpl; lia.
    + intros Hne. destruct (decide _); [simpl; lia | done].
Qed.

Lemma iteration_moved dfuel tok upd w r w' :
  iteration signals_Parse h dfuel tok upd w = (r, w') ->
  length (script w') <= length (script w)
  /\ (length (script w) < dfuel -> r <> OutOfFuel)
  /\ exists n d f,
       reacted w' = reacted w + n /\ derived w' = derived w + d
       /\ renew_failures w' = renew_failures w + f
       /\ n <= Nat.b2n upd /\ d <= 1 /\ f <= 1
       /\ (f = 1 -> n = Nat.b2n upd)
       /\ (tok <> "" -> d = 0)
       /\ (tok = "" -> n = 1 -> d = 1)
       /\ (forall t u, r = Val (Some (t, u)) ->
           t = "" /\ length (script w') < length (script w)
           /\ (tok = "" -> d = 1)
           /\ n + Nat.b2n u <= f + Nat.b2n upd
           /\ (ChangeMode (vaultStanza h) <> VaultChangeModeNoop ->
               n + Nat.b2n u = f + Nat.b2n upd)).
Proof.
  unfold iteration. intros H. step H E dn.
  2: { apply answer_moved in E as [[_ ->] | (? & ? & _)]; [|done].
       split_and!; try done. exists 0, 0, 0. split_and!; try done; lia. }
  2: { apply answer_moved in E as [[? _] | (? & ? & _)]; done. }
  apply answer_moved in E as [[? _] | (dn' & Hr & Hm & HL)]; [done|].
  injection Hr as <-. destruct dn.
  { step H E1 v.
    - apply stopRenewal_moved in E1 as [Hm1 _]. injection H as <- <-.
      split_moved. split_and!; try done; try lia.
      exists 0, 0, 0. split_and!; try done; lia.
    - apply stopRenewal_moved in E1 as [Hm1 _].
      split_moved. split_and!; try done; try lia.
      exists 0, 0, 0. split_and!; try done; lia.
    - by apply stopRenewal_moved in E1 as [_ ?]. }
  step H E1 v.
  2-3: apply future_Clear_inv in E1 as (? & _); done.
  apply future_Clear_inv in E1 as (_ & Ht & Hs & _).
  pose proof (quiet_moved _ _ Ht Hs) as Hm1.
  step H E2 ot.
  - apply obtainToken_moved in E2
      as (HR & HF & HL2 & _ & d & HD & Hd & Hne & Hemp).
    destruct ot as [t|].
    + apply renewToken_moved in H
        as (HD3 & HL3 & Hfuel & n & f & HR3 & HF3 & Hn & Hf & Hfn & Hnext).
      split_moved. split_and!; try done; try lia.
      exists n, d, f. split_and!; try done; try lia.
      * intros Hx. by destruct (Hne Hx).
      * intros -> _. by destruct (Hemp eq_refl t eq_refl).
      * intros t' u ->. destruct (Hnext t' u eq_refl) as (-> & HL4 & Hle & Heq).
        split_and!; try done; try lia.
        intros ->. by destruct (Hemp eq_refl t eq_refl).
    + injection H as <- <-. split_moved. split_and!; try done; try lia.
      exists 0, d, 0. split_and!; try done; try lia.
      intros Hx. by destruct (Hne Hx).
  - apply obtainToken_moved in E2
      as (HR & HF & HL2 & _ & d & HD & Hd & Hne & Hemp).
    split_moved. split_and!; try done; try lia.
    exists 0, d, 0. split_and!; try done; try lia.
    intros Hx. by destruct (Hne Hx).
  - apply obtainToken_moved in E2
      as (HR & HF & HL2 & Hfuel & d & HD & Hd & Hne & Hemp).
    split_moved. split_and!; try done; try lia.
    + intros Hlt. exfalso. apply Hfuel; [lia | done].
    + exists 0, d, 0. split_and!; try done; try lia.
      intros Hx. by destruct (Hne Hx).
Qed.

(** Over any stretch of the loop: reactions never outnumber the renewal
    failures (plus a rotation pending at the start); unless the mode is
    noop, at most one failure is still unanswered; and when the stretch
    starts without a token, every reaction comes after a derivation of its
    own, the first derivation excepted when no rotation was pending. *)
Lemma run_loop_moved fuel dfuel tok upd w r w' :
  run_loop signals_Parse h fuel dfuel tok upd w = (r, w') ->
  exists n d f,
    reacted w' = reacted w + n /\ derived w' = derived w + d
    /\ renew_failures w' = renew_failures w + f
    /\ n <= f + Nat.b2n upd
    /\ (ChangeMode (vaultStanza h) <> VaultChangeModeNoop ->
        f + Nat.b2n upd <= n + 1)
    /\ (tok = "" -> n <= d /\ (upd = false -> n = 0 \/ n + 1 <= d)).
Proof.
  revert tok upd w r w'.
  induction fuel as [|fuel IH]; intros tok upd w r w' H; simpl in H.
  { injection H as <- <-. exists 0, 0, 0. split_and!; try lia.
    destruct upd; simpl; lia. }
  assert (Hend : forall r1 w1,
             iteration signals_Parse h dfuel tok upd w = (r1, w1) ->
             (forall t u, r1 <> Val (Some (t, u))) ->
             exists n d f,
               reacted w1 = reacted w + n /\ derived w1 = derived w + d
               /\ renew_failures w1 = renew_failures w + f
               /\ n <= f + Nat.b2n upd
               /\ (ChangeMode (vaultStanza h) <> VaultChangeModeNoop ->
                   f + Nat.b2n upd <= n + 1)
               /\ (tok = "" -> n <= d /\ (upd = false -> n = 0 \/ n + 1 <= d))).
  { intros r1 w1 Hit _.
    apply iteration_moved in Hit
      as (_ & _ & n & d & f & HR & HD & HF & Hn & Hd & Hf & Hfn & Hne & Hemp & _).
    exists n, d, f. split_and!; try done; try lia.
    - intros _. destruct upd; simpl in *; lia.
    - intros ->. specialize (Hemp eq_refl).
      destruct upd; simpl in *; (split; [lia | intros; lia || done]). }
  step H E next.
  2-3: by eapply (Hend _ _ eq_refl).
  destruct next as [[t u]|].
  2: { injection H as <- <-. by eapply (Hend _ _ eq_refl). }
  clear Hend.
  apply iteration_moved in E
    as (_ & _ & n1 & d1 & f1 & HR & HD & HF & Hn & Hd & Hf & Hfn & Hne & Hemp & Hnext).
  destruct (Hnext t u eq_refl) as (-> & HL & Hd1 & Hle & Heq).
  apply IH in H as (n2 & d2 & f2 & HR2 & HD2 & HF2 & Hle2 & Hge2 & Hemp2).
  destruct (Hemp2 eq_refl) as [Hnd2 Hfirst2].
  exists (n1 + n2), (d1 + d2), (f1 + f2). split_and!; try lia.
  - intros Hmode. specialize (Heq Hmode). specialize (Hge2 Hmode). lia.
  - intros ->. specialize (Hd1 eq_refl). split.
    + destruct upd; simpl in *; lia.
    + intros ->. simpl in *. lia.
Qed.

(** Every pass takes an answer, so a budget above the length of the script
    is never used up. *)
Lemma run_loop_fuel fuel dfuel tok upd w r w' :
  run_loop signals_Parse h fuel dfuel tok upd w = (r, w') ->
  length (script w) < fuel -> length (script w) < dfuel -> r <> OutOfFuel.
Proof.
  revert tok upd w r w'.
  induction fuel as [|fuel IH]; intros tok upd w r w' H Hf Hd; [lia|].
  simpl in H. step H E next.
  - apply iteration_moved in E
      as (_ & _ & n & d & f & _ & _ & _ & _ & _ & _ & _ & _ & _ & Hnext).
    destruct next as [[t u]|]; [|by injection H as <- <-].
    destruct (Hnext t u eq_refl) as (_ & HL & _).
    eapply IH; [exact H | lia | lia].
  - done.
  - apply iteration_moved in E as (_ & Hfuel & _). by destruct (Hfuel Hd).
Qed.

Lemma run_fuel tok w : (run signals_Parse h tok w).1 <> OutOfFuel.
Proof.
  unfold run.
  destruct (run_loop signals_Parse h (S (length (script w)))
              (S (length (script w))) tok false w) as [r w'] eqn:E.
  simpl. eapply run_loop_fuel; [exact E | lia | lia].
Qed.

(** *** Traces only grow *)

Lemma extends_refl w : extends w w.
Proof. exists []. by rewrite app_nil_r. Qed.

Lemma extends_trans w1 w2 w3 : extends w1 w2 -> extends w2 w3 -> extends w1 w3.
Proof.
  intros [e1 H1] [e2 H2]. exists (e1 ++ e2). by rewrite H2, H1, app_assoc.
Qed.

Lemma grows_ret {A} (a : A) : grows (ret a).
Proof. intros w r w' [= <- <-]. apply extends_refl. Qed.

Lemma grows_out_of_fuel {A} : grows (@out_of_fuel A).
Proof. intros w r w' [= <- <-]. apply extends_refl. Qed.

Lemma grows_bind {A B} (m : M A) (k : A -> M B) :
  grows m -> (forall a, grows (k a)) -> grows (bind m k).
Proof.
  intros Hm Hk w r w' H. unfold bind in H.
  destruct (m w) as [[a| |] w1] eqn:E; apply Hm in E.
  - eapply extends_trans; [exact E|]. by eapply Hk.
  - by injection H as <- <-.
  - by injection H as <- <-.
Qed.

Lemma grows_emit e : grows (emit e).
Proof. intros w r w' H. apply emit_inv in H as (_ & Ht & _). by exists [e]. Qed.

Lemma grows_answer {A} (sel : Reply -> option A) : grows (answer sel).
Proof.
  intros w r w' H. apply answer_inv in H as (Ht & _). exists [].
  by rewrite app_nil_r.
Qed.

Lemma grows_call {A} (sel : Reply -> option A) ev : grows (call sel ev).
Proof.
  unfold call. apply grows_bind; [apply grows_answer|]. intros a.
  apply grows_bind; [apply grows_emit|]. intros _. apply grows_ret.
Qed.

Lemma grows_future_Get : grows future_Get.
Proof. intros w r w' [= <- <-]. apply extends_refl. Qed.

Lemma grows_future_Clear : grows future_Clear.
Proof.
  intros w r w' H. apply future_Clear_inv in H as (_ & Ht & _).
  exists []. by rewrite app_nil_r.
Qed.

Lemma grows_future_Set tok : grows (future_Set tok).
Proof.
  intros w r w' H. apply future_Set_inv in H as (_ & Ht & _).
  exists []. by rewrite app_nil_r.
Qed.

Ltac grows :=
  repeat first
    [ apply grows_ret | apply grows_out_of_fuel | apply grows_emit
    | apply grows_answer | apply grows_call | apply grows_future_Get
    | apply grows_future_Clear | apply grows_future_Set
    | solve [auto]
    | apply grows_bind; [|intros ?]
    | match goal with
      | |- grows (match ?x with _ => _ end) => destruct x
      | |- grows (if ?b then _ else _) => destruct b
      end ].

Lemma grows_stopRenewal : grows stopRenewal.
Proof. unfold stopRenewal, logger_Warn, client_StopRenewToken. grows. Qed.

Lemma grows_deriveVaultToken_loop fuel attempts :
  grows (deriveVaultToken_loop h fuel attempts).
Proof.
  revert attempts. induction fuel as [|fuel IH]; intros attempts; simpl.
  - grows.
  - unfold client_DeriveToken, logger_Error, lifecycle_Kill, time_After,
      select_backoff.
    grows.
Qed.

Lemma grows_obtainToken dfuel tok : grows (obtainToken h dfuel tok).
Proof.
  unfold obtainToken, deriveVaultToken, writeToken, ioutil_WriteFile,
    logger_Error, lifecycle_Kill.
  pose proof (grows_deriveVaultToken_loop dfuel 0). grows.
Qed.

Lemma grows_applyChangeMode tok : grows (applyChangeMode signals_Parse h tok).
Proof.
  unfold applyChangeMode, lifecycle_Signal, logger_Error, lifecycle_Kill,
    lifecycle_Restart, updater_updatedVaultToken.
  grows.
Qed.

Lemma grows_watchRenewal upd : grows (watchRenewal h upd).
Proof.
  unfold watchRenewal, select_renewCh, logger_Error.
  pose proof grows_stopRenewal. grows.
Qed.

Lemma grows_renewToken tok upd : grows (renewToken signals_Parse h tok upd).
Proof.
  unfold renewToken, client_RenewToken, logger_Error.
  pose proof grows_applyChangeMode. pose proof grows_watchRenewal.
  grows; auto.
Qed.

Lemma grows_iteration dfuel tok upd :
  grows (iteration signals_Parse h dfuel tok upd).
Proof.
  unfold iteration, ctx_done.
  pose proof grows_stopRenewal. pose proof grows_obtainToken.
  pose proof grows_renewToken.
  grows; auto.
Qed.

(** *** Calls on the collaborators leave the future alone *)

Lemma keeps_ret {A} (a : A) : keeps (ret a).
Proof. by intros w r w' [= <- <-]. Qed.

Lemma keeps_out_of_fuel {A} : keeps (@out_of_fuel A).
Proof. by intros w r w' [= <- <-]. Qed.

Lemma keeps_bind {A B} (m : M A) (k : A -> M B) :
  keeps m -> (forall a, keeps (k a)) -> keeps (bind m k).
Proof.
  intros Hm Hk w r w' H. unfold bind in H.
  destruct (m w) as [[a| |] w1] eqn:E; apply Hm in E as [Ef Ec].
  - apply Hk in H as [Hf Hc]. by rewrite Hf, Hc.
  - by injection H as <- <-.
  - by injection H as <- <-.
Qed.

Lemma keeps_emit e : keeps (emit e).
Proof. intros w r w' H. by apply emit_inv in H as (_ & _ & _ & ? & ?). Qed.

Lemma keeps_answer {A} (sel : Reply -> option A) : keeps (answer sel).
Proof. intros w r w' H. by apply answer_inv in H as (_ & ? & ? & _). Qed.

Lemma keeps_call {A} (sel : Reply -> option A) ev : keeps (call sel ev).
Proof. intros w r w' H. by apply call_inv in H as (? & ? & _). Qed.

Ltac keeps :=
  repeat first
    [ apply keeps_ret | apply keeps_out_of_fuel | apply keeps_emit
    | apply keeps_answer | apply keeps_call
    | solve [auto]
    | apply keeps_bind; [|intros ?]
    | match goal with
      | |- keeps (match ?x with _ => _ end) => destruct x
      | |- keeps (if ?b then _ else _) => destruct b
      end ].

Lemma keeps_deriveVaultToken_loop fuel attempts :
  keeps (deriveVaultToken_loop h fuel attempts).
Proof.
  revert attempts. induction fuel as [|fuel IH]; intros attempts; simpl.
  - keeps.
  - unfold client_DeriveToken, logger_Error, lifecycle_Kill, time_After,
      select_backoff.
    keeps.
Qed.

(** *** Running against a known answer *)

Lemma call_run {A} (sel : Reply -> option A) ev w x rest a :
  script w = x :: rest -> sel x = Some a ->
  call sel ev w = (Val a, advance w [ev a] rest).
Proof.
  intros Hs Hx. destruct w as [sc tr f hp]. simpl in Hs. subst sc.
  unfold call, bind, answer, emit, advance. simpl. by rewrite Hx.
Qed.


Lemma advance_advance w evs1 rest1 evs2 rest2 :
  advance (advance w evs1 rest1) evs2 rest2 = advance w (evs1 ++ evs2) rest2.
Proof. unfold advance. simpl. by rewrite app_assoc. Qed.

Lemma advance_extends w evs rest : extends w (advance w evs rest).
Proof. by exists evs. Qed.

Lemma answer_run {A} (sel : Reply -> option A) w x rest a :
  script w = x :: rest -> sel x = Some a ->
  answer sel w = (Val a, consume w rest).
Proof.
  intros Hs Hx. destruct w as [sc tr f hp]. simpl in Hs. subst sc.
  unfold answer, consume. simpl. by rewrite Hx.
Qed.

Lemma ctx_done_run w b rest :
  script w = RCtxDone b :: rest -> ctx_done w = (Val b, consume w rest).
Proof. intros Hs. unfold ctx_done. by eapply answer_run. Qed.

Lemma select_backoff_run w b rest :
  script w = RBackoff b :: rest -> select_backoff w = (Val b, consume w rest).
Proof. intros Hs. unfold select_backoff. by eapply answer_run. Qed.

Lemma client_DeriveToken_run al tasks w res rest :
  script w = RDeriveToken res :: rest ->
  client_DeriveToken al tasks w
  = (Val res, advance w [EDeriveToken al tasks res] rest).
Proof. intros Hs. unfold client_DeriveToken. by eapply call_run. Qed.

Lemma client_RenewToken_run tok inc w err rest :
  script w = RRenewToken err :: rest ->
  client_RenewToken tok inc w
  = (Val err, advance w [ERenewToken tok inc err] rest).
Proof. intros Hs. unfold client_RenewToken. by eapply call_run. Qed.

Lemma ioutil_WriteFile_run path data perm w err rest :
  script w = RWriteFile err :: rest ->
  ioutil_WriteFile path data perm w
  = (Val err, advance w [EWriteFile path data perm err] rest).
Proof. intros Hs. unfold ioutil_WriteFile. by eapply call_run. Qed.

Lemma lifecycle_Signal_run source reason s w err rest :
  script w = RSignal err :: rest ->
  lifecycle_Signal source reason s w
  = (Val err, advance w [ESignal source reason s err] rest).
Proof. intros Hs. unfold lifecycle_Signal. by eapply call_run. Qed.






(** *** The derivation loop *)

Lemma derive_retry fuel attempts w err rest :
  script w = RDeriveToken (inr err) :: RBackoff true :: rest ->
  IsServerSide err = false -> IsRecoverable err = true ->
  deriveVaultToken_loop h (S fuel) attempts w
  = deriveVaultToken_loop h fuel (Int64.wrap (attempts + 1))
      (advance w (retry_trace h err attempts 1) rest).
Proof.
  intros Hs Hss Hrec. destruct w as [sc tr f hp]. simpl in Hs. subst sc.
  cbn. rewrite Hss, Hrec. cbn. unfold advance. cbn.
  by rewrite <- !app_assoc.
Qed.

Lemma derive_retries k fuel attempts w err rest :
  script w = retry_script err k ++ rest ->
  IsServerSide err = false -> IsRecoverable err = true ->
  (0 <= attempts)%Z -> (attempts + Z.of_nat k <= Int64.max_int64)%Z ->
  deriveVaultToken_loop h (k + fuel) attempts w
  = deriveVaultToken_loop h fuel (attempts + Z.of_nat k)
      (advance w (retry_trace h err attempts k) rest).
Proof.
  revert attempts w.
  induction k as [|k IH]; intros attempts w Hs Hss Hrec H0 Hmax.
  - simpl in *. rewrite Z.add_0_r. f_equal.
    destruct w as [sc tr f hp]. simpl in Hs. subst sc.
    unfold advance. simpl. by rewrite app_nil_r.
  - change (S k + fuel) with (S (k + fuel)).
    rewrite (derive_retry _ _ _ err (retry_script err k ++ rest)); try done.
    assert (Hw : Int64.wrap (attempts + 1) = (attempts + 1)%Z).
    { unfold Int64.wrap, Int64.max_int64 in *. rewrite Z.mod_small; lia. }
    rewrite Hw, IH; try done; try lia.
    rewrite advance_advance.
    replace (attempts + 1 + Z.of_nat k)%Z with (attempts + Z.of_nat (S k))%Z by lia.
    f_equal.
Qed.

Lemma sleeps_retry_trace err a k :
  sleeps (retry_trace h err a k)
  = (fun i => Backoff.backoff (a + Z.of_nat i)) <$> seq 0 k.
Proof.
  revert a. induction k as [|k IH]; intros a; [done|].
  cbn [retry_trace sleeps app]. rewrite IH. cbn [seq fmap list_fmap].
  rewrite Z.add_0_r. f_equal. rewrite <- fmap_S_seq, <- list_fmap_compose.
  apply list_fmap_ext. intros _ i _. simpl. f_equal. lia.
Qed.


(** *** The claims about [run] *)


(** C3 (amended): a failed [DeriveToken] is classified server-side first,
    then non-recoverable, and both kill the task as a failure, with the
    reasons "server error deriving vault token: <err>" and "failed to
    derive token: <err>"; only a recoverable error that is not server-side
    is waited out, for [backoff attempts], and retried with the next
    attempt number; and the attempts of one [deriveVaultToken] call are
    numbered from 0. *)
Theorem derive_error_classification fuel attempts w err rest :
  script w = RDeriveToken (inr err) :: rest ->
  let called := EDeriveToken (alloc h) [taskName h] (inr err) in
  let logged := ELogError "failed to derive Vault token" in
  (IsServerSide err = true ->
   deriveVaultToken_loop h (S fuel) attempts w
   = (Val ("", true),
      advance w [called; logged;
                 EKill "vault" ("server error deriving vault token: " +:+ Error err)
                   true] rest))
  /\ (IsServerSide err = false -> IsRecoverable err = false ->
      deriveVaultToken_loop h (S fuel) attempts w
      = (Val ("", true),
         advance w [called; logged;
                    EKill "vault" ("failed to derive token: " +:+ Error err)
                      true] rest))
  /\ (IsServerSide err = false -> IsRecoverable err = true ->
      forall fired rest', rest = RBackoff fired :: rest' ->
      let w1 := advance w [called; logged;
                           ETimeAfter (Backoff.backoff attempts)] rest' in
      deriveVaultToken_loop h (S fuel) attempts w
      = if fired
        then deriveVaultToken_loop h fuel (Int64.wrap (attempts + 1)) w1
        else (Val ("", true), w1))
  /\ (IsServerSide err = false -> IsRecoverable err = true ->
      forall k w0 rest0,
        script w0 = retry_script err k ++ rest0 ->
        (Z.of_nat k <= Int64.max_int64)%Z ->
        deriveVaultToken h (k + fuel) w0
        = deriveVaultToken_loop h fuel (Z.of_nat k)
            (advance w0 (retry_trace h err 0 k) rest0)
        /\ sleeps (retry_trace h err 0 k)
           = (fun i => Backoff.backoff (Z.of_nat i)) <$> seq 0 k).
Proof.
  intros Hs called logged.
  destruct w as [sc tr f hp]. simpl in Hs. subst sc.
  split_and!.
  - intros Hss. cbn. rewrite Hss. cbn. unfold advance. cbn.
    by rewrite <- !app_assoc.
  - intros Hss Hrec. cbn. rewrite Hss, Hrec. cbn. unfold advance. cbn.
    by rewrite <- !app_assoc.
  - intros Hss Hrec fired rest' -> w1. cbn. rewrite Hss, Hrec. cbn.
    subst w1. unfold advance. cbn. rewrite <- !app_assoc.
    by destruct fired.
  - intros Hss Hrec k w0 rest0 Hs0 Hk. split.
    + unfold deriveVaultToken. by rewrite (derive_retries k _ _ _ err rest0).
    + by rewrite sleeps_retry_trace.
Qed.

Lemma sleeps_app l1 l2 : sleeps (l1 ++ l2) = sleeps l1 ++ sleeps l2.
Proof.
  induction l1 as [|e l1 IH]; [done|].
  destruct e; simpl; by rewrite ?IH.
Qed.





(** *** The loop, pass by pass *)

Lemma bind_assoc {A B C} (m : M A) (f : A -> M B) (k : B -> M C) w :
  bind (bind m f) k w = bind m (fun a => bind (f a) k) w.
Proof. unfold bind. by destruct (m w) as [[a| |] w1]. Qed.

Lemma grows_run_loop fuel dfuel tok upd :
  grows (run_loop signals_Parse h fuel dfuel tok upd).
Proof.
  revert tok upd. induction fuel as [|fuel IH]; intros tok upd; simpl.
  - apply grows_out_of_fuel.
  - apply grows_bind; [apply grows_iteration|].
    intros [[t u]|]; [apply IH | apply grows_ret].
Qed.

Lemma opens_call {A} (P : Event -> Prop) (sel : Reply -> option A) ev :
  (forall a, P (ev a)) -> opens_with P (call sel ev).
Proof.
  intros HP w r w' H.
  apply call_inv in H
    as (_ & _ & [[-> ->] | (x & rest & a & _ & _ & _ & Ht & _)]); [by left|].
  right. by exists (ev a), [].
Qed.


Lemma opens_bind {A B} P (m : M A) (k : A -> M B) :
  opens_with P m -> (forall a, grows (k a)) -> opens_with P (bind m k).
Proof.
  intros Hm Hk w r w' H. unfold bind in H.
  destruct (m w) as [[a| |] w1] eqn:E.
  - destruct (Hm _ _ _ E) as [[? _] | (e & evs & Ht & He)]; [done|].
    apply Hk in H as [evs' Ht']. right. exists e, (evs ++ evs').
    split; [|done]. by rewrite Ht', Ht, <- app_assoc.
  - injection H as <- <-.
    destruct (Hm _ _ _ E) as [[_ Ht] | Hev]; [by left | by right].
  - injection H as <- <-.
    destruct (Hm _ _ _ E) as [[? _] | Hev]; [done | by right].
Qed.











(** C7 (amended): when a derivation has succeeded, after however many
    retries, and the token cannot be written to the token path, the manager
    logs and kills the task through the lifecycle with the reason "failed
    to write Vault token to disk" and the failure flag, and [run] returns:
    the renewal of that token is never asked for (nothing follows the kill
    and the rest of the script is left untaken) and the future stays
    cleared. *)
Theorem persist_failure_kills fuel dfuel upd w rest0 tok w1 e rest :
  script w = RCtxDone false :: rest0 ->
  deriveVaultToken h dfuel
    {| script := rest0; trace := trace w;
       future := Clear (future w); chans := chans w |}
  = (Val (tok, false), w1) ->
  script w1 = RWriteFile (Some e) :: rest ->
  let reason := "failed to write Vault token to disk" in
  let w' := advance w1 [EWriteFile (tokenPath h) tok 511 (Some e);
                        ELogError reason;
                        EKill "vault" reason true] rest in
  run_loop signals_Parse h (S fuel) dfuel "" upd w = (Val tt, w')
  /\ set (future w') = false /\ Get (future w') = "".
Proof.
  intros Hs Hd Hs1 reason w'.
  pose proof (keeps_deriveVaultToken_loop _ _ _ _ _ Hd) as [Hf _].
  simpl in Hf. split; [|subst w'; simpl; by rewrite Hf].
  cbn [run_loop].
  unfold iteration, obtainToken, writeToken, future_Clear, logger_Error,
    lifecycle_Kill, bind.
  destruct (decide ("" = "")); [|done].
  rewrite (ctx_done_run _ _ _ Hs). cbn [consume script trace future chans].
  rewrite Hd, (ioutil_WriteFile_run _ _ _ _ _ _ Hs1).
  subst w'. unfold ret, emit, advance. cbn. by rewrite <- !app_assoc.
Qed.


End SupervisorFacts.

(** ** The scenarios *)

Section ScenarioFacts.
Import Supervisor TokenFuture Scenario.

(** S3 of the spec: one signal, sent after the second derivation, and the
    handler is given the second token; nothing is killed. *)
Example S3_signals_once :
  let r := run parse (hook "signal" "SIGHUP") "" (init S3) in
  r.1 = Val tt
  /\ derived r.2 = 2 /\ renew_failures r.2 = 1 /\ reacted r.2 = 1
  /\ trace r.2 !! 8 = Some (ESignal "vault" "new Vault token acquired" 1 None)
  /\ trace r.2 !! 9 = Some (EUpdatedVaultToken "tok-2")
  /\ kills (trace r.2) = [].
Proof. vm_compute. by split_and!. Qed.

(** Eighteen recoverable failures in a row: the first is waited out for 5
    seconds, the last for a negative duration, that is, not at all. *)
Example eighteenth_retry_fires_at_once :
  let r := deriveVaultToken (hook "noop" "") 19
             (init (retry_script unavailable 18)) in
  r.1 = Blocked
  /\ length (sleeps (trace r.2)) = 18
  /\ sleeps (trace r.2) !! 0 = Some 5000000000%Z
  /\ sleeps (trace r.2) !! 3 = Some 180000000000%Z
  /\ last (sleeps (trace r.2)) = Some (-6334374448547758080)%Z.
Proof. vm_compute. by split_and!. Qed.





(** C3, as stated, fails on the wording of the first reason: a server-side
    error kills the task with "server error deriving vault token: boom",
    not with "server error deriving token: boom". *)
Lemma server_error_kill_reason :
  let w := (deriveVaultToken (hook "noop" "") 1
              (init [RDeriveToken (inr internal)])).2 in
  kills (trace w) = [("server error deriving vault token: boom", true)]
  /\ kills (trace w) <> [("server error deriving token: boom", true)].
Proof. vm_compute. split; [reflexivity | discriminate]. Qed.

Lemma derive_error_classification_witness :
  let hk := hook "noop" "" in
  let w err := init [RDeriveToken (inr err); RBackoff true] in
  deriveVaultToken_loop hk 1 0 (w internal)
  = (Val ("", true),
     advance (w internal)
       [EDeriveToken "alloc" ["t"] (inr internal);
        ELogError "failed to derive Vault token";
        EKill "vault" "server error deriving vault token: boom" true]
       [RBackoff true])
  /\ deriveVaultToken_loop hk 1 0 (w denied)
     = (Val ("", true),
        advance (w denied)
          [EDeriveToken "alloc" ["t"] (inr denied);
           ELogError "failed to derive Vault token";
           EKill "vault" "failed to derive token: permission denied" true]
          [RBackoff true])
  /\ deriveVaultToken_loop hk 1 0 (w unavailable)
     = deriveVaultToken_loop hk 0 (Int64.wrap (0 + 1))
         (advance (w unavailable)
            [EDeriveToken "alloc" ["t"] (inr unavailable);
             ELogError "failed to derive Vault token";
             ETimeAfter (Backoff.backoff 0)] [])
  /\ (deriveVaultToken hk (3 + 1) (init (retry_script unavailable 3 ++ []))
      = deriveVaultToken_loop hk 1 (Z.of_nat 3)
          (advance (init (retry_script unavailable 3 ++ []))
             (retry_trace hk unavailable 0 3) [])
      /\ sleeps (retry_trace hk unavailable 0 3)
         = (fun i => Backoff.backoff (Z.of_nat i)) <$> seq 0 3).
Proof.
  intros hk w.
  destruct (derive_error_classification hk 0 0 (w internal) internal
              [RBackoff true] eq_refl) as (H1 & _).
  destruct (derive_error_classification hk 0 0 (w denied) denied
              [RBackoff true] eq_refl) as (_ & H2 & _).
  destruct (derive_error_classification hk 0 0 (w unavailable) unavailable
              [RBackoff true] eq_refl) as (_ & _ & H3 & _).
  destruct (derive_error_classification hk 1 0 (w unavailable) unavailable
              [RBackoff true] eq_refl) as (_ & _ & _ & H4).
  split; [exact (H1 eq_refl)|].
  split; [exact (H2 eq_refl eq_refl)|].
  split; [exact (H3 eq_refl eq_refl true [] eq_refl)|].
  apply (H4 eq_refl eq_refl 3 (init (retry_script unavailable 3 ++ [])) []
           eq_refl).
  vm_compute. discriminate.
Defined.


(** C6: [DeriveToken] succeeds with a map that has no entry for the task;
    the lookup yields the empty string, it is written and its renewal
    starts, and the future is set with it: the handle of a waiter who was
    there before is ready and [Get] returns the empty token, while the
    manager waits on the renewal. *)
Theorem future_set_with_empty_token :
  let waiter := Wait newTokenFuture [] in
  let w0 := {| script := missing_entry; trace := [];
               future := waiter.1.2; chans := waiter.2 |} in
  let r := run parse (hook "noop" "") "" w0 in
  r.1 = Blocked /\ script r.2 = []
  /\ last (trace r.2) = Some (ERenewToken "" 30 None)
  /\ set (future r.2) = true
  /\ ready waiter.1.1 (chans r.2) = true
  /\ Get (future r.2) = "".
Proof. vm_compute. by split_and!. Qed.

(** C7, as stated, fails on the wording of the reason: the kill carries
    "failed to write Vault token to disk". *)
Lemma write_failure_kill_reason :
  let w := (run parse (hook "noop" "") "" (init write_failure)).2 in
  kills (trace w) = [("failed to write Vault token to disk", true)]
  /\ kills (trace w) <> [("failed to write token to disk", true)].
Proof. vm_compute. split; [reflexivity | discriminate]. Qed.

Lemma persist_failure_kills_witness :
  let hk := hook "noop" "" in
  let reason := "failed to write Vault token to disk" in
  let w1 :=
    {| script := [RWriteFile (Some "disk full"); RRenewToken None];
       trace := [EDeriveToken "alloc" ["t"] (inl (tokens "tok-1"))];
       future := Clear newTokenFuture;
       chans := [] |} in
  let w' := advance w1 [EWriteFile "/secrets/vault_token" "tok-1" 511
                          (Some "disk full");
                        ELogError reason;
                        EKill "vault" reason true] [RRenewToken None] in
  run_loop parse hk 1 1 "" false (init write_failure) = (Val tt, w')
  /\ set (future w') = false /\ Get (future w') = "".
Proof.
  exact (persist_failure_kills parse (hook "noop" "") 0 1 false
           (init write_failure)
           [RDeriveToken (inl (tokens "tok-1")); RWriteFile (Some "disk full");
            RRenewToken None]
           "tok-1" _ "disk full" [RRenewToken None]
           eq_refl eq_refl eq_refl).
Defined.


End ScenarioFacts.

(** ** What every run keeps to *)

Section ProtocolFacts.
Import Supervisor TokenFuture Protocol.

Variable signals_Parse : string -> Signal + string.
Variable h : vaultHook.
Variable seed : string.

Local Abbreviation Inv := (Protocol.Inv signals_Parse h seed).
Local Abbreviation shape := (Protocol.shape signals_Parse h seed).
Local Abbreviation hist_ok := (Protocol.hist_ok signals_Parse h seed).

Lemma last_started_snoc tr e :
  last_started (tr ++ [e])
  = match e with
    | ERenewToken tok _ None => Some tok
    | _ => last_started tr
    end.
Proof. unfold last_started. by rewrite foldl_app. Qed.

Lemma last_started_quiet tr e :
  starts e = false -> last_started (tr ++ [e]) = last_started tr.
Proof.
  intros He. rewrite last_started_snoc.
  destruct e as [| ? ? [|] | | | | | | | | |]; done.
Qed.

Lemma kills_app l1 l2 : kills (l1 ++ l2) = kills l1 ++ kills l2.
Proof.
  induction l1 as [|e l1 IH]; [done|].
  destruct e; simpl; by rewrite ?IH.
Qed.

Lemma kills_quiet tr e : is_kill e = false -> kills (tr ++ [e]) = kills tr.
Proof.
  intros He. rewrite kills_app. destruct e; try done; simpl; by rewrite app_nil_r.
Qed.

Lemma hist_ok_nil : hist_ok [].
Proof. intros i e Hi. by rewrite lookup_nil in Hi. Qed.

Lemma hist_ok_snoc tr e :
  hist_ok tr -> kills tr = [] -> shape tr e -> hist_ok (tr ++ [e]).
Proof.
  intros Hok Hk Hs i e' Hi.
  destruct (decide (i < length tr)) as [Hlt|Hge].
  - rewrite lookup_app_l in Hi by done.
    rewrite take_app_le by lia. by apply Hok.
  - destruct (decide (i = length tr)) as [->|Hne].
    + rewrite list_lookup_middle in Hi by done. injection Hi as <-.
      rewrite take_app_length. by split.
    + rewrite lookup_ge_None_2 in Hi; [done|].
      rewrite length_app. simpl. lia.
Qed.

Lemma shape_kill tr before prev msg reason :
  tr = (before ++ [prev]) ++ [ELogError msg] ->
  kill_cause signals_Parse h prev msg reason ->
  shape tr (EKill "vault" reason true).
Proof.
  intros -> Hc. simpl. split_and!; try done.
  exists before, prev, msg. by rewrite <- app_assoc.
Qed.

(** One more event, expected where it comes. *)
Lemma Inv_snoc w w' e :
  Inv w -> alive w ->
  trace w' = trace w ++ [e] -> future w' = future w ->
  shape (trace w) e ->
  (set (future w) = false \/ starts e = false) ->
  Inv w' /\ (is_kill e = false -> alive w').
Proof.
  intros [Hok Hpub] Hal Ht Hf Hs Hst. split; [split|].
  - rewrite Ht. by apply hist_ok_snoc.
  - unfold published in *. rewrite Hf, Ht.
    destruct (set (future w)) eqn:Hset; [|done].
    destruct Hst as [|Hst]; [done|]. by rewrite last_started_quiet.
  - intros Hk. unfold alive. by rewrite Ht, kills_quiet.
Qed.

Lemma emit_ok e w r w' :
  emit e w = (r, w') ->
  Inv w -> alive w -> shape (trace w) e ->
  (set (future w) = false \/ starts e = false) ->
  r = Val tt /\ Inv w' /\ (is_kill e = false -> alive w')
  /\ trace w' = trace w ++ [e] /\ future w' = future w
  /\ script w' = script w.
Proof.
  intros He Hinv Hal Hs Hst.
  apply emit_inv in He as (-> & Ht & Hsc & Hf & _).
  destruct (Inv_snoc w w' e) as [Hinv' Hal']; try done.
Qed.

Lemma call_ok {A} (sel : Reply -> option A) ev w r w' :
  call sel ev w = (r, w') ->
  Inv w -> alive w -> (forall a, shape (trace w) (ev a)) ->
  (forall a, is_kill (ev a) = false) ->
  (set (future w) = false \/ forall a, starts (ev a) = false) ->
  (r = Blocked /\ w' = w)
  \/ exists a, r = Val a /\ Inv w' /\ alive w'
               /\ trace w' = trace w ++ [ev a] /\ future w' = future w.
Proof.
  intros Hc Hinv Hal Hs Hk Hst.
  apply call_inv in Hc
    as (Hf & _ & [[-> ->] | (x & rest & a & _ & _ & -> & Ht & _)]); [by left|].
  right. exists a.
  destruct (Inv_snoc w w' (ev a)) as [Hinv' Hal']; try done.
  - destruct Hst as [|Hst]; [by left | right; apply Hst].
  - split_and!; try done. by apply Hal'.
Qed.

Lemma answer_ok {A} (sel : Reply -> option A) w r w' :
  answer sel w = (r, w') ->
  Inv w -> alive w ->
  r <> OutOfFuel /\ Inv w' /\ alive w' /\ trace w' = trace w
  /\ future w' = future w.
Proof.
  intros Ha [Hok Hpub] Hal.
  apply answer_inv in Ha as (Ht & Hf & _ & Hr).
  split_and!; try done.
  - by destruct Hr as [[-> _] | (? & ? & ? & _ & _ & -> & _)].
  - split; [by rewrite Ht|]. unfold published in *. by rewrite Hf, Ht.
  - unfold alive. by rewrite Ht.
Qed.

Lemma future_Set_ok tok w r w' :
  future_Set tok w = (r, w') ->
  Inv w -> last_started (trace w) = Some tok ->
  r = Val tt /\ Inv w' /\ trace w' = trace w.
Proof.
  intros H [Hok Hpub] Hls.
  apply future_Set_inv in H as (-> & Ht & _ & Hf).
  split_and!; try done. split; [by rewrite Ht|].
  unfold published. by rewrite Hf, Ht.
Qed.

Lemma future_Clear_ok w r w' :
  future_Clear w = (r, w') ->
  Inv w ->
  r = Val tt /\ Inv w' /\ trace w' = trace w /\ set (future w') = false.
Proof.
  intros H [Hok Hpub].
  apply future_Clear_inv in H as (-> & Ht & _ & Hf & _).
  split_and!; try done; [|by rewrite Hf].
  split; [by rewrite Ht|]. unfold published. by rewrite Hf.
Qed.

Lemma alive_same w w' : trace w' = trace w -> alive w -> alive w'.
Proof. unfold alive. by intros ->. Qed.

Ltac open_bind H E x :=
  match type of H with
  | bind ?m ?k ?st = _ =>
      unfold bind in H at 1;
      destruct (m st) as [[x| |] ?w] eqn:E;
      [ | try (injection H as <- <-) | try (injection H as <- <-) ]
  end.

(** Open a [bind] whose first computation records an event that starts no
    renewal. *)
Ltac open_emit H Hinv Hal :=
  let E := fresh "E" in
  let v := fresh "v_" in
  let Hinv' := fresh "Hinv" in
  let Hal' := fresh "Hal" in
  let Ht := fresh "Ht" in
  let Hf := fresh "Hf" in
  open_bind H E v;
  unfold logger_Error, logger_Warn, lifecycle_Kill, lifecycle_Restart,
    updater_updatedVaultToken, time_After in E;
  [ apply emit_ok in E as (_ & Hinv' & Hal' & Ht & Hf & _);
    [ | exact Hinv | exact Hal | | by right ]
  | apply emit_inv in E as (? & _); discriminate .. ].

Lemma stopRenewal_ok w r w' :
  stopRenewal w = (r, w') ->
  Inv w -> alive w ->
  r <> OutOfFuel /\ Inv w' /\ alive w' /\ future w' = future w.
Proof.
  unfold stopRenewal. intros H Hinv Hal.
  unfold bind at 1, future_Get in H.
  assert (Hstop : forall a, shape (trace w) (EStopRenewToken (Get (future w)) a)).
  { intros a. simpl. destruct Hinv as [_ Hpub]. unfold published, Get in *.
    destruct (set (future w)); [by right | by left]. }
  open_bind H E err.
  - apply call_ok in E as [[? _] | (a & Hr & Hinv1 & Hal1 & Ht1 & Hf1)];
      try done; [|by right].
    injection Hr as <-. destruct err as [e|].
    + apply emit_ok in H as (-> & Hinv2 & Hal2 & Ht2 & Hf2 & _);
        try done; [|by right].
      split_and!; try done; [by apply Hal2 | by rewrite Hf2].
    + by injection H as <- <-.
  - apply call_ok in E as [[_ ->] | (a & Hr & _)]; try done. by right.
  - apply call_ok in E as [[? _] | (a & Hr & _)]; try done. by right.
Qed.

Lemma deriveVaultToken_loop_ok fuel attempts w r w' :
  deriveVaultToken_loop h fuel attempts w = (r, w') ->
  Inv w -> alive w ->
  Inv w' /\ future w' = future w
  /\ match r with
     | Val (tok, false) =>
         alive w'
         /\ exists tokens,
              last (trace w')
              = Some (EDeriveToken (alloc h) [taskName h] (inl tokens))
              /\ tok = default "" (tokens !! taskName h)
     | Val (_, true) => True
     | _ => alive w'
     end.
Proof.
  revert attempts w r w'.
  induction fuel as [|fuel IH]; intros attempts w r w' H Hinv Hal; simpl in H.
  { by injection H as <- <-. }
  open_bind H E res.
  2-3: apply call_ok in E as [[? ->] | (? & ? & _)]; try done; by right.
  apply call_ok in E as [[? _] | (a & Hr & Hinv1 & Hal1 & Ht1 & Hf1)];
    try done; [|by right].
  injection Hr as <-. destruct res as [tokens|err].
  - injection H as <- <-. split_and!; try done.
    exists tokens. by rewrite Ht1, last_snoc.
  - destruct (IsServerSide err) eqn:Hss;
      [|destruct (IsRecoverable err) eqn:Hrec; simpl in H].
    + open_emit H Hinv1 Hal1; [|done].
      open_emit H Hinv0 (Hal0 eq_refl).
      2: { eapply shape_kill; [by rewrite Ht, Ht1|].
           simpl. rewrite Hss. split; [done | by left]. }
      injection H as <- <-. split_and!; try done. congruence.
    + open_emit H Hinv1 Hal1; [|done].
      open_emit H Hinv0 (Hal0 eq_refl); [|apply backoff_le_limit].
      open_bind H E2 fired.
      * apply answer_ok in E2 as (_ & Hinv3 & Hal3 & Ht3 & Hf3);
          [|done|by apply Hal2].
        destruct fired.
        -- apply IH in H as (Hinv4 & Hf4 & Hres); try done.
           split_and!; try done. congruence.
        -- injection H as <- <-. split_and!; try done. congruence.
      * apply answer_ok in E2 as (_ & Hinv3 & Hal3 & Ht3 & Hf3);
          [|done|by apply Hal2].
        split_and!; try done. congruence.
      * by apply answer_ok in E2 as (? & _); [|done|by apply Hal2].
    + open_emit H Hinv1 Hal1; [|done].
      open_emit H Hinv0 (Hal0 eq_refl).
      2: { eapply shape_kill; [by rewrite Ht, Ht1|].
           simpl. rewrite Hss, Hrec. split; [done | by right]. }
      injection H as <- <-. split_and!; try done. congruence.
Qed.

Lemma writeToken_ok tok w r w' :
  writeToken h tok w = (r, w') ->
  Inv w -> alive w ->
  (exists tokens,
      last (trace w) = Some (EDeriveToken (alloc h) [taskName h] (inl tokens))
      /\ tok = default "" (tokens !! taskName h)) ->
  r <> OutOfFuel /\ Inv w' /\ alive w' /\ future w' = future w
  /\ (r = Val None ->
      last (trace w') = Some (EWriteFile (tokenPath h) tok 511 None))
  /\ (forall e, r = Val (Some e) ->
      exists e0,
        trace w' = trace w ++ [EWriteFile (tokenPath h) tok 511 (Some e0)]).
Proof.
  unfold writeToken. intros H Hinv Hal Hlast. open_bind H E err.
  - apply call_ok in E as [[? _] | (a & Hr & Hinv1 & Hal1 & Ht1 & Hf1)];
      try done; [|by right].
    injection Hr as <-.
    destruct err as [e0|]; injection H as <- <-; split_and!; try done.
    + intros e _. by exists e0.
    + intros _. by rewrite Ht1, last_snoc.
  - apply call_ok in E as [[_ ->] | (? & ? & _)]; try done. by right.
  - apply call_ok in E as [[? _] | (? & ? & _)]; try done. by right.
Qed.

Lemma obtainToken_ok dfuel tok w r w' :
  obtainToken h dfuel tok w = (r, w') ->
  Inv w -> alive w ->
  Inv w' /\ future w' = future w
  /\ (alive w' \/ r = Val None)
  /\ (forall t, r = Val (Some t) ->
      alive w'
      /\ ((tok <> "" /\ t = tok /\ trace w' = trace w)
          \/ (tok = ""
              /\ last (trace w') = Some (EWriteFile (tokenPath h) t 511 None)))).
Proof.
  unfold obtainToken. intros H Hinv Hal.
  destruct (decide (tok = "")) as [->|Hne].
  2: { injection H as <- <-. split_and!; try done; [by left|].
       intros t [= <-]. split; [done|]. by left. }
  open_bind H E res.
  - apply deriveVaultToken_loop_ok in E as (Hinv1 & Hf1 & Hres); try done.
    destruct res as [t [|]].
    + injection H as <- <-. split_and!; try done. by right.
    + destruct Hres as [Hal1 Hlast]. open_bind H E2 err.
      * apply writeToken_ok in E2 as (_ & Hinv2 & Hal2 & Hf2 & Hw & Hwe);
          try done.
        destruct err as [e|].
        -- destruct (Hwe e eq_refl) as [e0 Ht2].
           open_emit H Hinv2 Hal2; [|done].
           open_emit H Hinv0 (Hal0 eq_refl).
           2: { by eapply shape_kill; [by rewrite Ht, Ht2|]. }
           injection H as <- <-. split_and!; try done; [congruence|by right].
        -- injection H as <- <-. split_and!; try done; [congruence|by left|].
           intros t' [= <-]. split; [done|]. right. split; [done|]. by apply Hw.
      * apply writeToken_ok in E2 as (_ & Hinv2 & Hal2 & Hf2 & Hw & _);
          try done.
        split_and!; try done; [congruence|by left].
      * by apply writeToken_ok in E2 as (? & _).
  - apply deriveVaultToken_loop_ok in E as (Hinv1 & Hf1 & Hres); try done.
    split_and!; try done. by left.
  - apply deriveVaultToken_loop_ok in E as (Hinv1 & Hf1 & Hres); try done.
    split_and!; try done. by left.
Qed.

Lemma applyChangeMode_ok tok w r w' :
  applyChangeMode signals_Parse h tok w = (r, w') ->
  Inv w -> alive w ->
  (exists before, trace w = before ++ [ERenewToken tok 30 None]) ->
  ChangeMode (vaultStanza h) <> VaultChangeModeNoop ->
  Inv w' /\ (alive w' \/ r = Val true).
Proof.
  unfold applyChangeMode. intros H Hinv Hal [before Hbefore] Hmode.
  assert (Hls : last_started (trace w) = Some tok).
  { by rewrite Hbefore, last_started_snoc. }
  destruct (decide (ChangeMode (vaultStanza h) = VaultChangeModeSignal)) as [Hsig|Hsig];
    [|destruct (decide (ChangeMode (vaultStanza h) = VaultChangeModeRestart)) as [Hre|Hre]].
  - destruct (signals_Parse (ChangeSignal (vaultStanza h))) as [s|perr] eqn:Hp.
    + open_bind H E err.
      * apply call_ok in E as [[? _] | (a & Hr & Hinv1 & Hal1 & Ht1 & Hf1)];
          try done; [|by right].
        injection Hr as <-. destruct err as [e|].
        -- open_emit H Hinv1 Hal1; [|done].
           open_emit H Hinv0 (Hal0 eq_refl).
           2: { by eapply shape_kill; [by rewrite Ht, Ht1|]. }
           injection H as <- <-. split; [done | by right].
        -- open_emit H Hinv1 Hal1.
           { injection H as <- <-. split; [done|]. left. by apply Hal0. }
           simpl. split; [|done]. by rewrite Ht1, last_started_quiet.
      * apply call_ok in E as [[_ ->] | (? & ? & _)]; try done;
          [by split; [|left] | by right].
      * apply call_ok in E as [[? _] | (? & ? & _)]; try done. by right.
    + open_emit H Hinv Hal; [|done].
      open_emit H Hinv0 (Hal0 eq_refl).
      2: { eapply shape_kill; [by rewrite Ht, Hbefore|].
           simpl. split_and!; try done. by exists perr. }
      injection H as <- <-. split; [done | by right].
  - open_emit H Hinv Hal; [|done].
    open_emit H Hinv0 (Hal0 eq_refl).
    { injection H as <- <-. split; [done|]. left. by apply Hal1. }
    simpl. split; [|done]. by rewrite Ht, last_started_quiet.
  - open_emit H Hinv Hal; [|done].
    open_emit H Hinv0 (Hal0 eq_refl).
    { injection H as <- <-. split; [done|]. left. by apply Hal1. }
    simpl. split; [|done]. by rewrite Ht, last_started_quiet.
Qed.

Lemma watchRenewal_ok upd w r w' :
  watchRenewal h upd w = (r, w') ->
  Inv w -> alive w ->
  Inv w' /\ alive w'
  /\ (forall t u, r = Val (Some (t, u)) ->
      t = ""
      /\ (u = true ->
          upd = true \/ ChangeMode (vaultStanza h) <> VaultChangeModeNoop)).
Proof.
  unfold watchRenewal. intros H Hinv Hal. open_bind H E ev.
  - apply answer_ok in E as (_ & Hinv1 & Hal1 & Ht1 & Hf1); try done.
    destruct ev as [err|].
    + open_emit H Hinv1 Hal1; [|done].
      open_bind H E2 v.
      * apply stopRenewal_ok in E2 as (_ & Hinv2 & Hal2 & _);
          [|done|by apply Hal0].
        destruct (decide (ChangeMode (vaultStanza h) <> VaultChangeModeNoop));
          injection H as <- <-; split_and!; try done;
          intros t u [= <- <-]; split; try done; intros; auto.
      * apply stopRenewal_ok in E2 as (_ & Hinv2 & Hal2 & _);
          [|done|by apply Hal0].
        by split_and!.
      * by apply stopRenewal_ok in E2 as (? & _); [|done|by apply Hal0].
    + open_bind H E2 v.
      * apply stopRenewal_ok in E2 as (_ & Hinv2 & Hal2 & _); try done.
        injection H as <- <-. by split_and!.
      * apply stopRenewal_ok in E2 as (_ & Hinv2 & Hal2 & _); try done.
      * by apply stopRenewal_ok in E2 as (? & _).
  - apply answer_ok in E as (_ & Hinv1 & Hal1 & Ht1 & Hf1); try done.
  - by apply answer_ok in E as (? & _).
Qed.

Lemma renewToken_ok tok upd w r w' :
  renewToken signals_Parse h tok upd w = (r, w') ->
  Inv w -> alive w -> set (future w) = false ->
  ((trace w = [] /\ tok = seed /\ seed <> "")
   \/ last (trace w) = Some (EWriteFile (tokenPath h) tok 511 None)) ->
  (upd = true -> ChangeMode (vaultStanza h) <> VaultChangeModeNoop) ->
  Inv w' /\ (alive w' \/ r = Val None)
  /\ (forall t u, r = Val (Some (t, u)) ->
      t = "" /\ alive w'
      /\ (u = true -> ChangeMode (vaultStanza h) <> VaultChangeModeNoop)).
Proof.
  unfold renewToken. intros H Hinv Hal Hset Hmay Hupd.
  assert (Hshape : forall a, shape (trace w) (ERenewToken tok 30 a)).
  { intros a. simpl. split; [done|].
    destruct Hmay as [(-> & ? & ?)|]; [by left | by right]. }
  open_bind H E err.
  2: { apply call_ok in E as [[_ ->] | (? & ? & _)]; try done;
         [by split_and!; [|left|] | by left]. }
  2: { apply call_ok in E as [[? _] | (? & ? & _)]; try done. by left. }
  apply call_ok in E as [[? _] | (a & Hr & Hinv1 & Hal1 & Ht1 & Hf1)];
    try done; [|by left].
  injection Hr as <-. destruct err as [e|].
  { open_emit H Hinv1 Hal1; [|done].
    injection H as <- <-. split_and!; try done; [left; by apply Hal0|].
    intros t u [= <- <-]. split_and!; try done. by apply Hal0. }
  assert (Hls : last_started (trace w0) = Some tok).
  { by rewrite Ht1, last_started_snoc. }
  open_bind H E1 v.
  2-3: by apply future_Set_ok in E1 as (? & _).
  apply future_Set_ok in E1 as (_ & Hinv2 & Ht2); try done.
  pose proof (alive_same _ _ Ht2 Hal1) as Hal2.
  assert (Hwatch : forall w2 r2 w3,
             watchRenewal h false w2 = (r2, w3) -> Inv w2 -> alive w2 ->
             Inv w3 /\ (alive w3 \/ r2 = Val None)
             /\ (forall t u', r2 = Val (Some (t, u')) ->
                 t = "" /\ alive w3
                 /\ (u' = true ->
                     ChangeMode (vaultStanza h) <> VaultChangeModeNoop))).
  { intros w2 r2 w3 Hw Hi Ha.
    apply watchRenewal_ok in Hw as (Hi3 & Ha3 & Hnext); try done.
    split_and!; try done; [by left|].
    intros t u' Hr. destruct (Hnext t u' Hr) as [-> Hu].
    split_and!; try done. intros Hu'. by destruct (Hu Hu'). }
  destruct upd.
  - open_bind H E2 exit.
    + apply applyChangeMode_ok in E2 as (Hinv3 & Hal3); try done;
        [|by exists (trace w); rewrite Ht2|by apply Hupd].
      destruct exit.
      * injection H as <- <-. split_and!; try done. by right.
      * destruct Hal3 as [Hal3|]; [|done]. by eapply Hwatch.
    + apply applyChangeMode_ok in E2 as (Hinv3 & Hal3); try done;
        [|by exists (trace w); rewrite Ht2|by apply Hupd].
      destruct Hal3 as [Hal3|]; [|done]. split_and!; try done. by left.
    + apply applyChangeMode_ok in E2 as (Hinv3 & Hal3); try done;
        [|by exists (trace w); rewrite Ht2|by apply Hupd].
      destruct Hal3 as [Hal3|]; [|done]. split_and!; try done. by left.
  - by eapply Hwatch.
Qed.

Lemma iteration_ok dfuel tok upd w r w' :
  iteration signals_Parse h dfuel tok upd w = (r, w') ->
  Inv w -> alive w ->
  (tok = "" \/ (trace w = [] /\ tok = seed)) ->
  (upd = true -> ChangeMode (vaultStanza h) <> VaultChangeModeNoop) ->
  Inv w' /\ (alive w' \/ r = Val None)
  /\ (forall t u, r = Val (Some (t, u)) ->
      t = "" /\ alive w'
      /\ (u = true -> ChangeMode (vaultStanza h) <> VaultChangeModeNoop)).
Proof.
  unfold iteration. intros H Hinv Hal Htok Hupd. open_bind H E dn.
  2: { apply answer_ok in E as (_ & Hinv1 & Hal1 & _); try done.
       split_and!; try done. by left. }
  2: { by apply answer_ok in E as (? & _). }
  apply answer_ok in E as (_ & Hinv1 & Hal1 & Ht1 & Hf1); try done.
  destruct dn.
  { open_bind H E1 v.
    - apply stopRenewal_ok in E1 as (_ & Hinv2 & Hal2 & _); try done.
      injection H as <- <-. split_and!; try done. by left.
    - apply stopRenewal_ok in E1 as (_ & Hinv2 & Hal2 & _); try done.
      split_and!; try done. by left.
    - by apply stopRenewal_ok in E1 as (? & _). }
  open_bind H E1 v.
  2-3: by apply future_Clear_ok in E1 as (? & _).
  apply future_Clear_ok in E1 as (_ & Hinv2 & Ht2 & Hset2); try done.
  pose proof (alive_same _ _ Ht2 Hal1) as Hal2.
  open_bind H E2 ot.
  - apply obtainToken_ok in E2 as (Hinv3 & Hf3 & Hal3 & Hsome); try done.
    destruct ot as [t|].
    + destruct (Hsome t eq_refl) as [Hal4 Hfrom].
      apply renewToken_ok in H; try done; [by rewrite Hf3|].
      destruct Hfrom as [(Hne & -> & Ht3) | [_ Hlast]]; [|by right].
      left. destruct Htok as [|[Hnil ->]]; [done|].
      split_and!; try done. by rewrite Ht3, Ht2, Ht1.
    + injection H as <- <-. split_and!; try done. by right.
  - apply obtainToken_ok in E2 as (Hinv3 & Hf3 & Hal3 & Hsome); try done.
    destruct Hal3 as [|]; [|done]. split_and!; try done. by left.
  - apply obtainToken_ok in E2 as (Hinv3 & Hf3 & Hal3 & Hsome); try done.
    destruct Hal3 as [|]; [|done]. split_and!; try done. by left.
Qed.

Lemma run_loop_ok fuel dfuel tok upd w r w' :
  run_loop signals_Parse h fuel dfuel tok upd w = (r, w') ->
  Inv w -> alive w ->
  (tok = "" \/ (trace w = [] /\ tok = seed)) ->
  (upd = true -> ChangeMode (vaultStanza h) <> VaultChangeModeNoop) ->
  Inv w' /\ (alive w' \/ r = Val tt).
Proof.
  revert tok upd w r w'.
  induction fuel as [|fuel IH]; intros tok upd w r w' H Hinv Hal Htok Hupd;
    simpl in H.
  { injection H as <- <-. split; [done | by left]. }
  open_bind H E next.
  - apply iteration_ok in E as (Hinv1 & Hal1 & Hnext); try done.
    destruct next as [[t u]|].
    + destruct (Hnext t u eq_refl) as (-> & Hal2 & Hu).
      apply IH in H; try done. by left.
    + injection H as <- <-. split; [done | by right].
  - apply iteration_ok in E as (Hinv1 & Hal1 & _); try done.
    destruct Hal1 as [|]; [|done]. split; [done | by left].
  - apply iteration_ok in E as (Hinv1 & Hal1 & _); try done.
    destruct Hal1 as [|]; [|done]. split; [done | by left].
Qed.

(** From a fresh hook, every call of [run] is expected where it comes, the
    future holds the token whose renewal started last, and a kill makes
    [run] return. *)
Lemma run_ok w r w' :
  fresh w ->
  run signals_Parse h seed w = (r, w') ->
  Inv w' /\ (alive w' \/ r = Val tt).
Proof.
  intros (Ht & Hset & Htok) H. unfold run in H.
  apply run_loop_ok in H; try done.
  - split; [rewrite Ht; apply hist_ok_nil|].
    unfold published. by rewrite Hset.
  - unfold alive. by rewrite Ht.
  - by right.
Qed.

(** *** Reading the invariant *)

Lemma last_take_lookup {A} (l : list A) i x e :
  l !! i = Some x -> last (take i l) = Some e ->
  exists j, i = S j /\ l !! j = Some e.
Proof.
  intros Hi Hl. apply lookup_lt_Some in Hi.
  destruct i as [|j]; [by rewrite take_0 in Hl|].
  exists j. split; [done|].
  rewrite last_lookup, length_take_le in Hl by lia. simpl in Hl.
  by rewrite lookup_take_lt in Hl by lia.
Qed.

Lemma last_started_lookup tr tok :
  last_started tr = Some tok ->
  exists j inc,
    tr !! j = Some (ERenewToken tok inc None)
    /\ forall k e, j < k -> tr !! k = Some e -> starts e = false.
Proof.
  induction tr as [|e tr IH] using rev_ind; [done|].
  intros Hls. destruct (starts e) eqn:He.
  - destruct e as [| tok' inc [|] | | | | | | | | |]; try done.
    rewrite last_started_snoc in Hls. injection Hls as ->.
    exists (length tr), inc. split; [by apply list_lookup_middle|].
    intros k e' Hk He'. apply lookup_lt_Some in He'.
    rewrite length_app in He'. simpl in He'. lia.
  - rewrite last_started_quiet in Hls by done.
    destruct (IH Hls) as (j & inc & Hj & Hafter).
    exists j, inc. split; [by apply lookup_app_l_Some|].
    intros k e' Hk He'.
    destruct (decide (k < length tr)) as [Hlt|Hge].
    + rewrite lookup_app_l in He' by done. by eapply Hafter.
    + destruct (decide (k = length tr)) as [->|Hne].
      * rewrite list_lookup_middle in He' by done. by injection He' as <-.
      * apply lookup_lt_Some in He'. rewrite length_app in He'.
        simpl in He'. lia.
Qed.

Lemma last_started_at tr i tok :
  last_started (take i tr) = Some tok -> started_at tr i tok.
Proof.
  intros Hls. apply last_started_lookup in Hls as (j & inc & Hj & Hafter).
  apply lookup_take_Some in Hj as [Hj Hlt].
  exists j, inc. split_and!; try done.
  intros k e [Hjk Hki] He. apply (Hafter k e); [done|].
  by rewrite lookup_take_lt.
Qed.

Lemma kills_lookup tr i source reason fail :
  tr !! i = Some (EKill source reason fail) ->
  forall n, i < n -> kills (take n tr) <> [].
Proof.
  intros Hi n Hn Hk.
  assert (Hin : take n tr !! i = Some (EKill source reason fail)).
  { by rewrite lookup_take_lt. }
  apply list_elem_of_split_length in Hin as (l1 & l2 & Heq & _).
  rewrite Heq, kills_app in Hk. simpl in Hk.
  by apply app_eq_nil in Hk as [_ ?].
Qed.

(** *** What every run keeps to, call by call *)

(** X1: a kill comes from "vault" with the failure flag, is the only kill and
    the last call of the run, and makes [run] return. *)
Theorem kill_ends_run w r w' i source reason fail :
  fresh w ->
  run signals_Parse h seed w = (r, w') ->
  trace w' !! i = Some (EKill source reason fail) ->
  source = "vault" /\ fail = true
  /\ kills (take i (trace w')) = []
  /\ S i = length (trace w')
  /\ r = Val tt.
Proof.
  intros Hfresh Hrun Hi.
  destruct (run_ok _ _ _ Hfresh Hrun) as [[Hok _] Hend].
  destruct (Hok _ _ Hi) as [Hk (-> & -> & _)].
  split_and!; try done.
  - pose proof (lookup_lt_Some _ _ _ Hi) as Hlt.
    destruct (decide (S i = length (trace w'))) as [|Hne]; [done|].
    destruct (lookup_lt_is_Some_2 (trace w') (S i)) as [e He]; [lia|].
    destruct (Hok _ _ He) as [Hk' _].
    exfalso. by eapply (kills_lookup _ _ _ _ _ Hi (S i)); [lia|].
  - destruct Hend as [Hal|]; [|done].
    exfalso. eapply (kills_lookup _ _ _ _ _ Hi (length (trace w'))).
    + by eapply lookup_lt_Some.
    + by rewrite firstn_all.
Qed.

(** X2: the task is only killed over a failed call, right after the failure
    has been logged as an error: a [DeriveToken] error that is server-side
    or not recoverable, a token that could not be written, a change signal
    that does not parse once the renewal has started, or a signal that
    could not be sent; and the reason of the kill names that failure. *)
Theorem kill_follows_logged_failure w r w' i source reason fail :
  fresh w ->
  run signals_Parse h seed w = (r, w') ->
  trace w' !! i = Some (EKill source reason fail) ->
  exists j prev msg,
    i = S (S j)
    /\ trace w' !! j = Some prev
    /\ trace w' !! S j = Some (ELogError msg)
    /\ kill_cause signals_Parse h prev msg reason.
Proof.
  intros Hfresh Hrun Hi.
  destruct (run_ok _ _ _ Hfresh Hrun) as [[Hok _] _].
  destruct (Hok _ _ Hi) as [_ (_ & _ & before & prev & msg & Htake & Hc)].
  pose proof (lookup_lt_Some _ _ _ Hi) as Hlt.
  assert (Hlen : i = S (S (length before))).
  { apply (f_equal length) in Htake.
    rewrite length_take_le, length_app in Htake by lia. simpl in Htake. lia. }
  exists (length before), prev, msg. split_and!; try done.
  - assert (Hj : take i (trace w') !! length before = Some prev).
    { rewrite Htake. by apply list_lookup_middle. }
    by apply lookup_take_Some in Hj as [Hj _].
  - assert (Hj : take i (trace w') !! S (length before) = Some (ELogError msg)).
    { rewrite Htake. change [prev; ELogError msg] with ([prev] ++ [ELogError msg]).
      rewrite app_assoc. apply list_lookup_middle.
      rewrite length_app. simpl. lia. }
    by apply lookup_take_Some in Hj as [Hj _].
Qed.

(** X5: the complaint about an invalid change mode is only logged for a mode
    that is none of signal, restart and noop: the noop arm of the switch is
    never taken. *)
Theorem invalid_mode_only_when_unknown w r w' i :
  fresh w ->
  run signals_Parse h seed w = (r, w') ->
  trace w' !! i = Some (ELogError "invalid Vault change mode") ->
  ChangeMode (vaultStanza h) <> VaultChangeModeSignal
  /\ ChangeMode (vaultStanza h) <> VaultChangeModeRestart
  /\ ChangeMode (vaultStanza h) <> VaultChangeModeNoop.
Proof.
  intros Hfresh Hrun Hi.
  destruct (run_ok _ _ _ Hfresh Hrun) as [[Hok _] _].
  destruct (Hok _ _ Hi) as [_ Hs]. by apply Hs.
Qed.

(** X3: no delay handed to [time.After] exceeds [vaultBackoffLimit]. *)
Theorem delays_bounded w r w' i d :
  fresh w ->
  run signals_Parse h seed w = (r, w') ->
  trace w' !! i = Some (ETimeAfter d) ->
  (d <= Backoff.vaultBackoffLimit)%Z.
Proof.
  intros Hfresh Hrun Hi.
  destruct (run_ok _ _ _ Hfresh Hrun) as [[Hok _] _].
  by destruct (Hok _ _ Hi) as [_ ?].
Qed.

(** X4: the task is signalled only in signal mode, with the signal that
    [change_signal] parses to, and restarted only in restart mode, never as
    a failure; both in the name of "vault" for a new token. *)
Theorem reactions_follow_mode w r w' :
  fresh w ->
  run signals_Parse h seed w = (r, w') ->
  (forall i source reason s err,
      trace w' !! i = Some (ESignal source reason s err) ->
      source = "vault" /\ reason = "new Vault token acquired"
      /\ ChangeMode (vaultStanza h) = VaultChangeModeSignal
      /\ signals_Parse (ChangeSignal (vaultStanza h)) = inl s)
  /\ (forall i source reason failure,
        trace w' !! i = Some (ERestart source reason failure) ->
        source = "vault" /\ reason = "new Vault token acquired"
        /\ failure = false
        /\ ChangeMode (vaultStanza h) = VaultChangeModeRestart).
Proof.
  intros Hfresh Hrun.
  destruct (run_ok _ _ _ Hfresh Hrun) as [[Hok _] _].
  split.
  - intros i source reason s err Hi. by destruct (Hok _ _ Hi) as [_ ?].
  - intros i source reason failure Hi. by destruct (Hok _ _ Hi) as [_ ?].
Qed.

(** X6: whatever is written goes to the token path with mode 0777, right after
    a [DeriveToken] that returned without error, and is the entry of the
    task in the map it returned (empty if there is none). *)
Theorem write_follows_derivation w r w' i path data perm err :
  fresh w ->
  run signals_Parse h seed w = (r, w') ->
  trace w' !! i = Some (EWriteFile path data perm err) ->
  path = tokenPath h /\ perm = 511%Z
  /\ exists j tokens,
       i = S j
       /\ trace w' !! j
          = Some (EDeriveToken (alloc h) [taskName h] (inl tokens))
       /\ data = default "" (tokens !! taskName h).
Proof.
  intros Hfresh Hrun Hi.
  destruct (run_ok _ _ _ Hfresh Hrun) as [[Hok _] _].
  destruct (Hok _ _ Hi) as [_ (-> & -> & tokens & Hlast & ->)].
  split_and!; try done.
  destruct (last_take_lookup _ _ _ _ Hi Hlast) as (j & -> & Hj).
  by exists j, tokens.
Qed.

(** X7: a renewal is asked for 30 seconds, either as the very first call, for
    the token [run] was given, or right after that same token was written
    to the token path. *)
Theorem renewal_follows_write w r w' i tok inc err :
  fresh w ->
  run signals_Parse h seed w = (r, w') ->
  trace w' !! i = Some (ERenewToken tok inc err) ->
  inc = 30%Z
  /\ ((i = 0 /\ tok = seed /\ seed <> "")
      \/ exists j,
           i = S j
           /\ trace w' !! j = Some (EWriteFile (tokenPath h) tok 511 None)).
Proof.
  intros Hfresh Hrun Hi.
  destruct (run_ok _ _ _ Hfresh Hrun) as [[Hok _] _].
  destruct (Hok _ _ Hi) as [_ [-> Hmay]]. split; [done|].
  destruct Hmay as [(Hnil & -> & Hseed) | Hlast].
  - left. split_and!; try done.
    apply take_nil_inv in Hnil as [|Hnil]; [done|].
    by rewrite Hnil in Hi.
  - right. destruct (last_take_lookup _ _ _ _ Hi Hlast) as (j & -> & Hj).
    by exists j.
Qed.

(** X8: every call of the update handler that [run] makes happens outside
    noop mode and hands over the token whose renewal was started last.
    ([Prerun] calls the handler itself, in every mode; that call is not
    one of [run].) *)
Theorem update_follows_started_renewal w r w' i tok :
  fresh w ->
  run signals_Parse h seed w = (r, w') ->
  trace w' !! i = Some (EUpdatedVaultToken tok) ->
  started_at (trace w') i tok
  /\ ChangeMode (vaultStanza h) <> VaultChangeModeNoop.
Proof.
  intros Hfresh Hrun Hi.
  destruct (run_ok _ _ _ Hfresh Hrun) as [[Hok _] _].
  destruct (Hok _ _ Hi) as [_ [Hls Hmode]].
  split; [by apply last_started_at | done].
Qed.

(** X9: [StopRenewToken] is called with the token whose renewal was started
    last, or with the empty token. *)
Theorem stop_targets_started_renewal w r w' i tok err :
  fresh w ->
  run signals_Parse h seed w = (r, w') ->
  trace w' !! i = Some (EStopRenewToken tok err) ->
  tok = "" \/ started_at (trace w') i tok.
Proof.
  intros Hfresh Hrun Hi.
  destruct (run_ok _ _ _ Hfresh Hrun) as [[Hok _] _].
  destruct (Hok _ _ Hi) as [_ [|Hls]]; [by left|].
  right. by apply last_started_at.
Qed.

(** X10: in noop mode the task is never signalled or restarted and the update
    handler is never called. *)
Theorem noop_never_reacts w r w' i e :
  ChangeMode (vaultStanza h) = VaultChangeModeNoop ->
  fresh w ->
  run signals_Parse h seed w = (r, w') ->
  trace w' !! i = Some e ->
  match e with
  | ESignal _ _ _ _ | ERestart _ _ _ | EUpdatedVaultToken _ => False
  | _ => True
  end.
Proof.
  intros Hmode Hfresh Hrun Hi.
  destruct (run_ok _ _ _ Hfresh Hrun) as [[Hok _] _].
  destruct (Hok _ _ Hi) as [_ Hs].
  destruct e; try done; simpl in Hs.
  - destruct Hs as (_ & _ & Hm & _). by rewrite Hmode in Hm.
  - destruct Hs as (_ & _ & _ & Hm). by rewrite Hmode in Hm.
  - by destruct Hs as [_ Hm].
Qed.

(** X11: wherever the run stands, a set future holds the token whose renewal
    was started last, and a future that is not set holds the empty
    token. *)
Theorem future_holds_started_token w r w' :
  fresh w ->
  run signals_Parse h seed w = (r, w') ->
  if set (future w')
  then started_at (trace w') (length (trace w')) (Get (future w'))
  else Get (future w') = "".
Proof.
  intros Hfresh Hrun.
  destruct (run_ok _ _ _ Hfresh Hrun) as [[_ Hpub] _].
  unfold published in Hpub. destruct (set (future w')); [|done].
  apply last_started_at. by rewrite firstn_all.
Qed.

End ProtocolFacts.

(** ** The whole backoff schedule *)

Section ScheduleFacts.
Import Int64 Backoff.
Open Scope Z_scope.

Lemma between_cases (a : Z) (len : nat) (n : Z) :
  a <= n < a + Z.of_nat len ->
  Exists (fun k => n = k) ((fun i => a + Z.of_nat i) <$> seq 0 len).
Proof.
  intros Hn. apply Exists_exists. exists n. split; [|done].
  apply list_elem_of_fmap. exists (Z.to_nat (n - a)). split; [lia|].
  apply elem_of_seq. lia.
Qed.

(** X16: the delay before the retry that follows failed attempt [n] of one
    [deriveVaultToken] call: never above [vaultBackoffLimit]; the capped
    exponential [min(5s * 4^n, 3min)] up to attempt 16; from attempt 17 to
    27 the product has wrapped and the delay is either the cap or negative;
    from attempt 28 on all bits are shifted out and the delay is zero. *)
Theorem backoff_schedule n :
  0 <= n <= max_int64 ->
  backoff n <= vaultBackoffLimit
  /\ (n <= 16 ->
      backoff n = Z.min (vaultBackoffBaseline * 4 ^ n) vaultBackoffLimit)
  /\ (17 <= n < 28 -> backoff n = vaultBackoffLimit \/ backoff n < 0)
  /\ (28 <= n -> backoff n = 0).
Proof.
  intros Hn. split_and!.
  - apply backoff_le_limit.
  - intros Hle. rewrite backoff_ideal_upto_16 by lia.
    unfold ideal_delay. by rewrite Z.pow_mul_r by lia.
  - intros Hmid.
    pose proof (between_cases 17 11 n ltac:(lia)) as Hcases. cbn in Hcases.
    repeat (apply Exists_cons in Hcases as [-> | Hcases];
            [first [left; vm_compute; reflexivity
                   | right; vm_compute; reflexivity]|]).
    by apply Exists_nil in Hcases.
  - intros Hlate. destruct (decide (n < 32)) as [Hlt|Hge].
    + pose proof (between_cases 28 4 n ltac:(lia)) as Hcases. cbn in Hcases.
      repeat (apply Exists_cons in Hcases as [-> | Hcases];
              [vm_compute; reflexivity|]).
      by apply Exists_nil in Hcases.
    + apply backoff_zero_from_32. lia.
Qed.

Lemma backoff_schedule_witness :
  backoff 20 <= vaultBackoffLimit
  /\ (20 <= 16 ->
      backoff 20 = Z.min (vaultBackoffBaseline * 4 ^ 20) vaultBackoffLimit)
  /\ (17 <= 20 < 28 -> backoff 20 = vaultBackoffLimit \/ backoff 20 < 0)
  /\ (28 <= 20 -> backoff 20 = 0).
Proof. apply (backoff_schedule 20). vm_compute. split; discriminate. Defined.

End ScheduleFacts.

(** ** More on the token future *)

Section MoreFutureFacts.
Import TokenFuture.

Lemma exec_snoc ops o s : exec (ops ++ [o]) s = apply o (exec ops s).
Proof. unfold exec. by rewrite foldl_app. Qed.

(** X17: however [Wait], [Set], [Clear] and [Get] are interleaved on a new
    future, the channels in [waiting] are distinct and open: [Set] never
    closes a channel twice. *)
Theorem waiting_channels_open ops hp : wf (exec ops (newTokenFuture, hp)).
Proof.
  induction ops as [|o ops IH] using rev_ind; [apply wf_new|].
  rewrite exec_snoc. by apply wf_apply.
Qed.

Lemma tracked_apply o s : tracked s -> tracked (apply o s).
Proof.
  destruct s as [f hp]. intros Htr. destruct o as [|tok| |]; simpl; try done.
  - unfold Wait, make_chan.
    destruct (set f) eqn:Hs; simpl; intros c Hc; cbn [fst snd] in *.
    + rewrite close_chan_length, length_app in Hc. simpl in Hc.
      destruct (decide (c = length hp)) as [->|Hne].
      * left. apply close_chan_ready. rewrite length_app. simpl. lia.
      * destruct (Htr c) as [Hr|Hin]; [simpl; lia | | by right].
        left. apply ready_close. by apply ready_grow.
    + rewrite length_app in Hc. simpl in Hc.
      destruct (decide (c = length hp)) as [->|Hne].
      * right. apply elem_of_app. right. by apply list_elem_of_singleton.
      * destruct (Htr c) as [Hr|Hin]; [simpl; lia | |].
        -- left. by apply ready_grow.
        -- right. apply elem_of_app. by left.
  - intros c Hc. simpl in *. rewrite close_all_length in Hc. left.
    destruct (Htr c Hc) as [Hr|Hin]; simpl in *.
    + by apply ready_close_all.
    + by apply close_all_ready.
Qed.

Lemma tracked_exec ops : tracked (exec ops (newTokenFuture, [])).
Proof.
  induction ops as [|o ops IH] using rev_ind.
  - intros c Hc. simpl in Hc. lia.
  - rewrite exec_snoc. by apply tracked_apply.
Qed.

(** X18: [Set] releases everyone: after any history on a new future that ends
    with a [Set], every handle [Wait] has ever returned is ready. *)
Theorem Set_releases_every_waiter ops t c :
  let s := exec (ops ++ [OSet t]) (newTokenFuture, []) in
  c < length s.2 -> ready c s.2 = true.
Proof.
  intros s Hc. subst s. rewrite exec_snoc in *.
  pose proof (tracked_exec ops) as Htr.
  destruct (exec ops (newTokenFuture, [])) as [f hp]. simpl in *.
  rewrite close_all_length in Hc.
  destruct (Htr c Hc) as [Hr|Hin]; simpl in *.
  - by apply ready_close_all.
  - by apply close_all_ready.
Qed.

Lemma Set_releases_every_waiter_witness :
  ready 1 (exec ([OWait; OWait; OClear; OWait] ++ [OSet "tok-A"])
             (newTokenFuture, [])).2 = true.
Proof.
  apply (Set_releases_every_waiter [OWait; OWait; OClear; OWait] "tok-A" 1).
  vm_compute. lia.
Defined.

(** X19: a future that is not set holds no token: after any history on a new
    future, [Get] returns the empty string unless the future is set. *)
Theorem unset_future_is_empty ops hp :
  let f := (exec ops (newTokenFuture, hp)).1 in
  set f = false -> Get f = "".
Proof.
  induction ops as [|o ops IH] using rev_ind; [done|].
  rewrite exec_snoc. simpl in *.
  destruct (exec ops (newTokenFuture, hp)) as [f hp']. simpl in *.
  destruct o; simpl; try done.
  unfold Wait, make_chan. destruct (set f) eqn:Hs; simpl; [by rewrite Hs|].
  intros _. by apply IH.
Qed.

Lemma unset_future_is_empty_witness :
  Get (exec [OSet "tok-A"; OWait; OClear; OWait] (newTokenFuture, [])).1 = "".
Proof.
  apply (unset_future_is_empty [OSet "tok-A"; OWait; OClear; OWait] []).
  reflexivity.
Defined.

End MoreFutureFacts.

(** ** The invariants of [run] on the scenarios *)

Section RunScenarioFacts.
Import Supervisor TokenFuture Protocol Scenario.

Lemma fresh_init sc : fresh (init sc).
Proof. by repeat split. Qed.

Lemma kill_ends_run_witness :
  let r := run parse (hook "noop" "") "" (init write_failure) in
  "vault" = "vault" /\ true = true
  /\ kills (take 3 (trace r.2)) = []
  /\ S 3 = length (trace r.2)
  /\ r.1 = Val tt.
Proof.
  intros r.
  apply (kill_ends_run parse (hook "noop" "") "" (init write_failure) r.1 r.2
           3 "vault" "failed to write Vault token to disk" true);
    [apply fresh_init | apply surjective_pairing | vm_compute; reflexivity].
Defined.

Lemma kill_follows_logged_failure_witness :
  let r := run parse (hook "noop" "") "" (init write_failure) in
  exists j prev msg,
    3 = S (S j)
    /\ trace r.2 !! j = Some prev
    /\ trace r.2 !! S j = Some (ELogError msg)
    /\ kill_cause parse (hook "noop" "") prev msg
         "failed to write Vault token to disk".
Proof.
  intros r.
  apply (kill_follows_logged_failure parse (hook "noop" "") ""
           (init write_failure) r.1 r.2 3 "vault"
           "failed to write Vault token to disk" true);
    [apply fresh_init | apply surjective_pairing | vm_compute; reflexivity].
Defined.

Lemma invalid_mode_only_when_unknown_witness :
  ChangeMode (vaultStanza (hook "bogus" "")) <> VaultChangeModeSignal
  /\ ChangeMode (vaultStanza (hook "bogus" "")) <> VaultChangeModeRestart
  /\ ChangeMode (vaultStanza (hook "bogus" "")) <> VaultChangeModeNoop.
Proof.
  pose (r := run parse (hook "bogus" "") "tok-R" (init recovered_then_rotated)).
  apply (invalid_mode_only_when_unknown parse (hook "bogus" "") "tok-R"
           (init recovered_then_rotated) r.1 r.2 6);
    [apply fresh_init | apply surjective_pairing | vm_compute; reflexivity].
Defined.

Lemma delays_bounded_witness :
  (5000000000 <= Backoff.vaultBackoffLimit)%Z.
Proof.
  pose (sc := [RCtxDone false; RDeriveToken (inr unavailable); RBackoff false]).
  pose (r := run parse (hook "noop" "") "" (init sc)).
  apply (delays_bounded parse (hook "noop" "") "" (init sc) r.1 r.2 2);
    [apply fresh_init | apply surjective_pairing | vm_compute; reflexivity].
Defined.

Lemma reactions_follow_mode_witness :
  ("vault" = "vault" /\ "new Vault token acquired" = "new Vault token acquired"
   /\ ChangeMode (vaultStanza (hook "signal" "SIGHUP")) = VaultChangeModeSignal
   /\ parse (ChangeSignal (vaultStanza (hook "signal" "SIGHUP"))) = inl 1)
  /\ ("vault" = "vault" /\ "new Vault token acquired" = "new Vault token acquired"
      /\ false = false
      /\ ChangeMode (vaultStanza (hook "restart" "SIGHUP"))
         = VaultChangeModeRestart).
Proof.
  pose (r1 := run parse (hook "signal" "SIGHUP") "" (init S3)).
  pose (r2 := run parse (hook "restart" "SIGHUP") "tok-R"
                (init recovered_then_rotated)).
  destruct (reactions_follow_mode parse (hook "signal" "SIGHUP") ""
              (init S3) r1.1 r1.2 (fresh_init _) (surjective_pairing _))
    as [Hsig _].
  destruct (reactions_follow_mode parse (hook "restart" "SIGHUP") "tok-R"
              (init recovered_then_rotated) r2.1 r2.2 (fresh_init _)
              (surjective_pairing _))
    as [_ Hre].
  split.
  - apply (Hsig 8 "vault" "new Vault token acquired" 1 None).
    vm_compute. reflexivity.
  - apply (Hre 6 "vault" "new Vault token acquired" false).
    vm_compute. reflexivity.
Defined.

Lemma write_follows_derivation_witness :
  let r := run parse (hook "signal" "SIGHUP") "" (init S3) in
  "/secrets/vault_token" = tokenPath (hook "signal" "SIGHUP") /\ 511%Z = 511%Z
  /\ exists j tks,
       6 = S j
       /\ trace r.2 !! j = Some (EDeriveToken "alloc" ["t"] (inl tks))
       /\ "tok-2" = default "" (tks !! "t").
Proof.
  intros r.
  apply (write_follows_derivation parse (hook "signal" "SIGHUP") "" (init S3)
           r.1 r.2 6 "/secrets/vault_token" "tok-2" 511 None);
    [apply fresh_init | apply surjective_pairing | vm_compute; reflexivity].
Defined.

Lemma renewal_follows_write_witness :
  let r := run parse (hook "signal" "SIGHUP") "" (init S3) in
  30%Z = 30%Z
  /\ ((7 = 0 /\ "tok-2" = "" /\ "" <> "")
      \/ exists j,
           7 = S j
           /\ trace r.2 !! j
              = Some (EWriteFile "/secrets/vault_token" "tok-2" 511 None)).
Proof.
  intros r.
  apply (renewal_follows_write parse (hook "signal" "SIGHUP") "" (init S3)
           r.1 r.2 7 "tok-2" 30 None);
    [apply fresh_init | apply surjective_pairing | vm_compute; reflexivity].
Defined.

Lemma update_follows_started_renewal_witness :
  let r := run parse (hook "signal" "SIGHUP") "" (init S3) in
  started_at (trace r.2) 9 "tok-2"
  /\ ChangeMode (vaultStanza (hook "signal" "SIGHUP")) <> VaultChangeModeNoop.
Proof.
  intros r.
  apply (update_follows_started_renewal parse (hook "signal" "SIGHUP") ""
           (init S3) r.1 r.2 9 "tok-2");
    [apply fresh_init | apply surjective_pairing | vm_compute; reflexivity].
Defined.

Lemma stop_targets_started_renewal_witness :
  let r := run parse (hook "signal" "SIGHUP") "" (init S3) in
  "tok-1" = "" \/ started_at (trace r.2) 4 "tok-1".
Proof.
  intros r.
  apply (stop_targets_started_renewal parse (hook "signal" "SIGHUP") ""
           (init S3) r.1 r.2 4 "tok-1" None);
    [apply fresh_init | apply surjective_pairing | vm_compute; reflexivity].
Defined.

Lemma noop_never_reacts_witness :
  let r := run parse (hook "noop" "") "" (init S3) in
  length (trace r.2) = 8
  /\ Forall (fun e => match e with
                      | ESignal _ _ _ _ | ERestart _ _ _
                      | EUpdatedVaultToken _ => False
                      | _ => True
                      end) (trace r.2).
Proof.
  intros r. split; [vm_compute; reflexivity|].
  apply Forall_lookup. intros i e Hi.
  apply (noop_never_reacts parse (hook "noop" "") "" (init S3) r.1 r.2 i e);
    [reflexivity | apply fresh_init | apply surjective_pairing | exact Hi].
Defined.

Lemma future_holds_started_token_witness :
  let r := run parse (hook "signal" "SIGHUP") "" (init S3) in
  if set (future r.2)
  then started_at (trace r.2) (length (trace r.2)) (Get (future r.2))
  else Get (future r.2) = "".
Proof.
  intros r.
  apply (future_holds_started_token parse (hook "signal" "SIGHUP") ""
           (init S3) r.1 r.2);
    [apply fresh_init | apply surjective_pairing].
Defined.

End RunScenarioFacts.

(** ** Derivation, from the first call to the published token *)

Section DerivationFacts.
Import Supervisor TokenFuture Protocol.

Variable signals_Parse : string -> Signal + string.
Variable h : vaultHook.

Ltac open_bind H E x :=
  match type of H with
  | bind ?m ?k ?st = _ =>
      unfold bind in H at 1;
      destruct (m st) as [[x| |] ?w] eqn:E;
      [ | try (injection H as <- <-) | try (injection H as <- <-) ]
  end.

Ltac open_emit H Ht :=
  let E := fresh "E" in
  let v := fresh "v_" in
  open_bind H E v;
  unfold logger_Error, lifecycle_Kill, time_After in E;
  [ apply emit_inv in E as (_ & Ht & _)
  | apply emit_inv in E as (? & _); discriminate .. ].

Lemma deriveVaultToken_loop_result fuel attempts w tok exit w' :
  deriveVaultToken_loop h fuel attempts w = (Val (tok, exit), w') ->
  if exit
  then tok = ""
       /\ ((exists reason, last (trace w') = Some (EKill "vault" reason true))
           \/ exists d, last (trace w') = Some (ETimeAfter d))
  else exists tokens,
      last (trace w') = Some (EDeriveToken (alloc h) [taskName h] (inl tokens))
      /\ tok = default "" (tokens !! taskName h).
Proof.
  revert attempts w.
  induction fuel as [|fuel IH]; intros attempts w H; simpl in H; [done|].
  open_bind H E res; [|done..].
  apply call_inv in E as (_ & _ & [[? _] | (x & rest & a & _ & _ & Hr & Ht & _)]);
    [done|].
  injection Hr as <-. destruct res as [tokens|err].
  - injection H as <- <- <-. exists tokens. by rewrite Ht, last_snoc.
  - destruct (IsServerSide err); [|destruct (IsRecoverable err); simpl in H].
    + open_emit H Ht1. open_emit H Ht2. injection H as <- <- <-.
      split; [done|]. left. eexists. by rewrite Ht2, last_snoc.
    + open_emit H Ht1. open_emit H Ht2.
      open_bind H E2 fired; [|done..].
      apply answer_inv in E2 as (Ht3 & _).
      destruct fired; [by apply IH in H|].
      injection H as <- <- <-. split; [done|]. right.
      eexists. by rewrite Ht3, Ht2, last_snoc.
    + open_emit H Ht1. open_emit H Ht2. injection H as <- <- <-.
      split; [done|]. left. eexists. by rewrite Ht2, last_snoc.
Qed.

(** X12: [deriveVaultToken] hands back a token only right after a [DeriveToken]
    that returned without error, and it is the entry of the task in the
    returned map; when it tells the manager to exit, the token is empty and
    it has either just killed the task or been cancelled while waiting to
    retry. *)
Theorem deriveVaultToken_result fuel w tok exit w' :
  deriveVaultToken h fuel w = (Val (tok, exit), w') ->
  if exit
  then tok = ""
       /\ ((exists reason, last (trace w') = Some (EKill "vault" reason true))
           \/ exists d, last (trace w') = Some (ETimeAfter d))
  else exists tokens,
      last (trace w') = Some (EDeriveToken (alloc h) [taskName h] (inl tokens))
      /\ tok = default "" (tokens !! taskName h).
Proof. apply deriveVaultToken_loop_result. Qed.

Lemma derive_success fuel attempts w tokens rest :
  script w = RDeriveToken (inl tokens) :: rest ->
  deriveVaultToken_loop h (S fuel) attempts w
  = (Val (default "" (tokens !! taskName h), false),
     advance w [EDeriveToken (alloc h) [taskName h] (inl tokens)] rest).
Proof.
  intros Hs. simpl. unfold bind.
  by rewrite (client_DeriveToken_run _ _ _ _ _ Hs).
Qed.

Lemma retry_script_length err k : length (retry_script err k) = 2 * k.
Proof. induction k as [|k IH]; simpl; [done|]. rewrite IH. lia. Qed.

Lemma run_loop_first_token k fuel dfuel w err tokens :
  IsServerSide err = false -> IsRecoverable err = true ->
  (Z.of_nat k <= Int64.max_int64)%Z ->
  script w
  = RCtxDone false
    :: retry_script err k
       ++ [RDeriveToken (inl tokens); RWriteFile None; RRenewToken None] ->
  let tok := default "" (tokens !! taskName h) in
  exists w',
    run_loop signals_Parse h (S fuel) (k + S dfuel) "" false w = (Blocked, w')
    /\ script w' = []
    /\ trace w'
       = trace w ++ retry_trace h err 0 k
         ++ [EDeriveToken (alloc h) [taskName h] (inl tokens);
             EWriteFile (tokenPath h) tok 511 None;
             ERenewToken tok 30 None]
    /\ set (future w') = true /\ Get (future w') = tok
    /\ (forall c, c ∈ waiting (future w) -> c < length (chans w) ->
        ready c (chans w') = true).
Proof.
  intros Hss Hrec Hk Hs tok.
  eexists. split.
  - cbn [run_loop].
    unfold iteration, obtainToken, deriveVaultToken, bind.
    destruct (decide ("" = "")); [|done].
    rewrite (ctx_done_run _ _ _ Hs). unfold future_Clear.
    cbn [consume script trace future chans].
    rewrite (derive_retries h k (S dfuel) 0 _ err
               [RDeriveToken (inl tokens); RWriteFile None; RRenewToken None]);
      [|done|done|done|lia|lia].
    rewrite (derive_success _ _ _ tokens [RWriteFile None; RRenewToken None])
      by done.
    unfold writeToken, bind.
    rewrite (ioutil_WriteFile_run _ _ _ _ _ [RRenewToken None]) by done.
    unfold ret, renewToken, bind.
    rewrite (client_RenewToken_run _ _ _ _ []) by done.
    reflexivity.
  - cbn. split_and!; try done.
    + by rewrite <- !app_assoc.
    + intros c Hin Hlt. by apply close_all_ready.
Qed.

(** X13: the first token, after any number of recoverable failures: once
    [DeriveToken] succeeds, the token is written, its renewal is started
    and it is published; the waiters of the future are released and the
    manager is left watching the renewal. *)
Theorem first_token_published_after_retries k w err tokens :
  IsServerSide err = false -> IsRecoverable err = true ->
  (Z.of_nat k <= Int64.max_int64)%Z ->
  script w
  = RCtxDone false
    :: retry_script err k
       ++ [RDeriveToken (inl tokens); RWriteFile None; RRenewToken None] ->
  let tok := default "" (tokens !! taskName h) in
  exists w',
    run signals_Parse h "" w = (Blocked, w')
    /\ script w' = []
    /\ trace w'
       = trace w ++ retry_trace h err 0 k
         ++ [EDeriveToken (alloc h) [taskName h] (inl tokens);
             EWriteFile (tokenPath h) tok 511 None;
             ERenewToken tok 30 None]
    /\ set (future w') = true /\ Get (future w') = tok
    /\ (forall c, c ∈ waiting (future w) -> c < length (chans w) ->
        ready c (chans w') = true).
Proof.
  intros Hss Hrec Hk Hs tok.
  destruct (run_loop_first_token k (k + (k + 4)) (k + 4) w err tokens
              Hss Hrec Hk Hs) as (w' & Hrun & Hrest).
  exists w'. split; [|done].
  assert (Hn : S (length (script w)) = S (k + (k + 4))).
  { rewrite Hs. cbn [length].
    rewrite length_app, retry_script_length. simpl. lia. }
  unfold run. rewrite Hn, <- Hrun. f_equal. lia.
Qed.

Lemma derive_cancelled fuel attempts w err rest :
  script w = RDeriveToken (inr err) :: RBackoff false :: rest ->
  IsServerSide err = false -> IsRecoverable err = true ->
  deriveVaultToken_loop h (S fuel) attempts w
  = (Val ("", true), advance w (retry_trace h err attempts 1) rest).
Proof.
  intros Hs Hss Hrec. destruct w as [sc tr f hp]. simpl in Hs. subst sc.
  cbn. rewrite Hss, Hrec. cbn. unfold advance. cbn.
  by rewrite <- !app_assoc.
Qed.

Lemma run_loop_cancel_in_backoff k fuel dfuel w err rest :
  IsServerSide err = false -> IsRecoverable err = true ->
  (Z.of_nat k <= Int64.max_int64)%Z ->
  script w
  = RCtxDone false
    :: retry_script err k ++ RDeriveToken (inr err) :: RBackoff false :: rest ->
  run_loop signals_Parse h (S fuel) (k + S dfuel) "" false w
  = (Val tt,
     {| script := rest;
        trace := trace w ++ retry_trace h err 0 k
                 ++ retry_trace h err (Z.of_nat k) 1;
        future := Clear (future w);
        chans := chans w |}).
Proof.
  intros Hss Hrec Hk Hs.
  cbn [run_loop].
  unfold iteration, obtainToken, deriveVaultToken, bind.
  destruct (decide ("" = "")); [|done].
  rewrite (ctx_done_run _ _ _ Hs). unfold future_Clear.
  cbn [consume script trace future chans].
  rewrite (derive_retries h k (S dfuel) 0 _ err
             (RDeriveToken (inr err) :: RBackoff false :: rest));
    [|done|done|done|lia|lia].
  rewrite (derive_cancelled _ _ _ err rest) by done.
  unfold ret, advance. cbn. by rewrite <- !app_assoc.
Qed.

Lemma retry_trace_quiet err a k :
  count is_stop (retry_trace h err a k) = 0
  /\ kills (retry_trace h err a k) = [].
Proof.
  revert a. induction k as [|k IH]; intros a; [done|].
  cbn. apply IH.
Qed.

(** X14: cancelled while waiting to retry a derivation, the manager returns at
    once: it asks for no kill and does not call [StopRenewToken], and it
    leaves the future cleared with every waiter still blocked. *)
Theorem cancel_during_backoff k w err rest :
  IsServerSide err = false -> IsRecoverable err = true ->
  (Z.of_nat k <= Int64.max_int64)%Z ->
  script w
  = RCtxDone false
    :: retry_script err k ++ RDeriveToken (inr err) :: RBackoff false :: rest ->
  exists w',
    run signals_Parse h "" w = (Val tt, w')
    /\ script w' = rest
    /\ trace w'
       = trace w ++ retry_trace h err 0 k ++ retry_trace h err (Z.of_nat k) 1
    /\ count is_stop (trace w') = count is_stop (trace w)
    /\ kills (trace w') = kills (trace w)
    /\ set (future w') = false /\ Get (future w') = ""
    /\ waiting (future w') = waiting (future w)
    /\ chans w' = chans w.
Proof.
  intros Hss Hrec Hk Hs.
  assert (Hn : S (length (script w)) = S (k + (k + 3 + length rest))).
  { rewrite Hs. cbn [length].
    rewrite length_app, retry_script_length. simpl. lia. }
  eexists. split.
  - unfold run. rewrite Hn.
    replace (S (k + (k + 3 + length rest)))
      with (k + S (k + 3 + length rest)) at 2 by lia.
    by apply run_loop_cancel_in_backoff.
  - cbn. split_and!; try done.
    + rewrite !count_app.
      destruct (retry_trace_quiet err 0 k) as [-> _]. simpl.
      destruct (IsServerSide err), (IsRecoverable err); simpl; lia.
    + rewrite !kills_app.
      destruct (retry_trace_quiet err 0 k) as [_ ->]. simpl.
      by rewrite app_nil_r.
Qed.

(** *** The first call of a run *)

Ltac grows :=
  repeat first
    [ apply grows_ret | apply grows_out_of_fuel | apply grows_emit
    | apply grows_answer | apply grows_call | apply grows_future_Get
    | apply grows_future_Clear | apply grows_future_Set
    | apply grows_stopRenewal | apply grows_deriveVaultToken_loop
    | apply grows_applyChangeMode | apply grows_watchRenewal
    | apply grows_renewToken | apply grows_iteration
    | apply grows_run_loop
    | apply grows_bind; [|intros ?]
    | match goal with
      | |- grows (match ?x with _ => _ end) => destruct x
      | |- grows (if ?b then _ else _) => destruct b
      end ].

Lemma opens_deriveVaultToken fuel :
  opens_with
    (fun e => exists res, e = EDeriveToken (alloc h) [taskName h] res)
    (deriveVaultToken h (S fuel)).
Proof.
  unfold deriveVaultToken. simpl. apply opens_bind.
  - apply opens_call. intros a. by exists a.
  - intros res.
    unfold logger_Error, lifecycle_Kill, time_After, select_backoff. grows.
Qed.

Lemma opens_renewToken tok upd :
  opens_with (fun e => exists err, e = ERenewToken tok 30 err)
    (renewToken signals_Parse h tok upd).
Proof.
  unfold renewToken. apply opens_bind.
  - apply opens_call. intros a. by exists a.
  - intros err. unfold logger_Error. grows.
Qed.

(** A run that finds the hook cancelled stops the renewal of what the
    future holds, logs a warning if that fails, and returns. *)
Lemma run_cancelled seed w rest r w' :
  script w = RCtxDone true :: rest ->
  run signals_Parse h seed w = (r, w') ->
  (r = Blocked /\ trace w' = trace w)
  \/ exists err,
       r = Val tt
       /\ trace w'
          = trace w
            ++ EStopRenewToken (Get (future w)) err
               :: match err with
                  | Some _ => [ELogWarn "failed to stop token renewal"]
                  | None => []
                  end.
Proof.
  intros Hs H. unfold run in H. cbn [run_loop] in H. unfold iteration in H.
  rewrite !bind_assoc in H. unfold bind at 1 in H.
  rewrite (ctx_done_run _ _ _ Hs) in H.
  rewrite bind_assoc in H. unfold stopRenewal in H.
  rewrite bind_assoc in H. unfold bind at 1, future_Get in H.
  rewrite bind_assoc in H. unfold bind at 1 in H.
  cbn [consume script trace future chans] in H.
  destruct (client_StopRenewToken _ _) as [[err| |] w1] eqn:E;
    apply call_inv in E
      as (_ & _ & [[Hr ->] | (x & rest' & a & _ & _ & Hr & Ht & _)]);
    try done.
  - injection Hr as <-. right. exists err. simpl in Ht.
    destruct err as [e|]; unfold bind, logger_Warn, emit, ret in H;
      injection H as <- <-; simpl; split; try done.
    + by rewrite Ht, <- app_assoc.
  - injection H as <- <-. by left.
Qed.

(** What a pass that is not cancelled does first. *)
Lemma opens_iteration {B} (k : option (string * bool) -> M B)
    dfuel seed upd w rest r w' :
  (forall a, grows (k a)) ->
  script w = RCtxDone false :: rest ->
  bind (iteration signals_Parse h (S dfuel) seed upd) k w = (r, w') ->
  (r = Blocked /\ trace w' = trace w)
  \/ exists e evs,
       trace w' = trace w ++ e :: evs
       /\ if decide (seed = "")
          then exists res, e = EDeriveToken (alloc h) [taskName h] res
          else exists err, e = ERenewToken seed 30 err.
Proof.
  intros Hk Hs H. unfold iteration in H. rewrite bind_assoc in H.
  unfold bind at 1 in H. rewrite (ctx_done_run _ _ _ Hs) in H.
  rewrite bind_assoc in H. unfold bind at 1, future_Clear in H.
  cbn [consume script trace future chans] in H.
  rewrite bind_assoc in H. unfold obtainToken in H.
  destruct (decide (seed = "")) as [->|Hne].
  - rewrite bind_assoc in H.
    eapply (opens_bind _ _ _ (opens_deriveVaultToken dfuel)) in H; [exact H|].
    intros [t ex].
    unfold writeToken, ioutil_WriteFile, logger_Error, lifecycle_Kill.
    grows; apply Hk.
  - unfold bind at 1, ret in H.
    exact (opens_bind _ _ k (opens_renewToken seed upd) Hk _ _ _ H).
Qed.

(** X20: the first call of a run started with nothing done yet.  If the
    hook is already cancelled it is [StopRenewToken] for whatever the
    future holds, and the run returns after it, having at most logged a
    warning that the stop failed.  If the hook is not cancelled it is
    [RenewToken] for the token the run was given, with an increment of 30,
    when that token is not empty, and [DeriveToken] for the task when it
    is. *)
Theorem first_call_of_run seed w r w' e cancelled rest :
  trace w = [] ->
  script w = RCtxDone cancelled :: rest ->
  run signals_Parse h seed w = (r, w') ->
  trace w' !! 0 = Some e ->
  if cancelled
  then exists err,
      e = EStopRenewToken (Get (future w)) err
      /\ r = Val tt
      /\ trace w'
         = e :: match err with
                | Some _ => [ELogWarn "failed to stop token renewal"]
                | None => []
                end
  else if decide (seed = "")
       then exists res, e = EDeriveToken (alloc h) [taskName h] res
       else exists err, e = ERenewToken seed 30 err.
Proof.
  intros Ht Hs H He. destruct cancelled.
  - destruct (run_cancelled _ _ _ _ _ Hs H) as [[_ Ht'] | (err & -> & Ht')].
    + by rewrite Ht', Ht in He.
    + rewrite Ht', Ht in He. simpl in He. injection He as <-.
      exists err. by rewrite Ht', Ht.
  - unfold run in H. cbn [run_loop] in H.
    eapply opens_iteration in H; [|intros [[t u]|]; grows|exact Hs].
    destruct H as [[_ Ht'] | (e0 & evs & Ht' & He0)].
    + by rewrite Ht', Ht in He.
    + rewrite Ht', Ht in He. simpl in He. by injection He as <-.
Qed.

(** X15: in a run that starts without a token the task is reacted on only for
    tokens derived after the first: the reactions stay below the successful
    derivations, unless there is none of either. *)
Theorem reactions_need_new_tokens w r w' :
  run signals_Parse h "" w = (r, w') ->
  reacted w' = reacted w
  \/ reacted w' - reacted w < derived w' - derived w.
Proof.
  intros H. unfold run in H.
  apply run_loop_moved in H as (n & d & f & HR & HD & _ & _ & _ & Hemp).
  destruct (Hemp eq_refl) as [_ Hfirst].
  destruct (Hfirst eq_refl) as [->|Hlt]; [left | right]; lia.
Qed.

End DerivationFacts.

(** ** Derivation on the scenarios *)

Section DerivationScenarioFacts.
Import Supervisor TokenFuture Scenario.

Lemma deriveVaultToken_result_witness :
  let r := deriveVaultToken (hook "noop" "") 3
             (init [RDeriveToken (inr unavailable); RBackoff true;
                    RDeriveToken (inl (tokens "tok-1"))]) in
  exists tks,
    last (trace r.2) = Some (EDeriveToken "alloc" ["t"] (inl tks))
    /\ "tok-1" = default "" (tks !! "t").
Proof.
  intros r.
  apply (deriveVaultToken_result (hook "noop" "") 3
           (init [RDeriveToken (inr unavailable); RBackoff true;
                  RDeriveToken (inl (tokens "tok-1"))])
           "tok-1" false r.2).
  vm_compute. reflexivity.
Defined.

Lemma first_token_published_after_retries_witness :
  let w := init (RCtxDone false
                 :: retry_script unavailable 2
                    ++ [RDeriveToken (inl (tokens "tok-1")); RWriteFile None;
                        RRenewToken None]) in
  exists w',
    run parse (hook "noop" "") "" w = (Blocked, w')
    /\ script w' = []
    /\ trace w'
       = trace w ++ retry_trace (hook "noop" "") unavailable 0 2
         ++ [EDeriveToken "alloc" ["t"] (inl (tokens "tok-1"));
             EWriteFile "/secrets/vault_token"
               (default "" (tokens "tok-1" !! "t")) 511 None;
             ERenewToken (default "" (tokens "tok-1" !! "t")) 30 None]
    /\ set (future w') = true
    /\ Get (future w') = default "" (tokens "tok-1" !! "t")
    /\ (forall c, c ∈ waiting (future w) -> c < length (chans w) ->
        ready c (chans w') = true).
Proof.
  intros w.
  apply (first_token_published_after_retries parse (hook "noop" "") 2 w
           unavailable (tokens "tok-1"));
    [reflexivity | reflexivity | vm_compute; discriminate | reflexivity].
Defined.

Lemma cancel_during_backoff_witness :
  let w := init (RCtxDone false
                 :: retry_script unavailable 2
                    ++ RDeriveToken (inr unavailable) :: RBackoff false :: []) in
  exists w',
    run parse (hook "noop" "") "" w = (Val tt, w')
    /\ script w' = []
    /\ trace w'
       = trace w ++ retry_trace (hook "noop" "") unavailable 0 2
         ++ retry_trace (hook "noop" "") unavailable (Z.of_nat 2) 1
    /\ count is_stop (trace w') = count is_stop (trace w)
    /\ kills (trace w') = kills (trace w)
    /\ set (future w') = false /\ Get (future w') = ""
    /\ waiting (future w') = waiting (future w)
    /\ chans w' = chans w.
Proof.
  intros w.
  apply (cancel_during_backoff parse (hook "noop" "") 2 w unavailable []);
    [reflexivity | reflexivity | vm_compute; discriminate | reflexivity].
Defined.

Lemma first_call_of_run_witness :
  let hk := hook "restart" "SIGHUP" in
  let r1 := run parse hk "tok-R" (init recovered_then_rotated) in
  let r2 := run parse hk "tok-R"
              (init [RCtxDone true; RStopRenewToken (Some "gone")]) in
  (exists err, ERenewToken "tok-R" 30 None = ERenewToken "tok-R" 30 err)
  /\ (exists err,
        EStopRenewToken "" (Some "gone") = EStopRenewToken "" err
        /\ r2.1 = Val tt
        /\ trace r2.2
           = EStopRenewToken "" (Some "gone")
             :: match err with
                | Some _ => [ELogWarn "failed to stop token renewal"]
                | None => []
                end).
Proof.
  intros hk r1 r2. split.
  - apply (first_call_of_run parse hk "tok-R" (init recovered_then_rotated)
             r1.1 r1.2 (ERenewToken "tok-R" 30 None) false
             [RRenewToken None; RRenewCh (Some (Some "lease expired"));
              RStopRenewToken None;
              RCtxDone false; RDeriveToken (inl (tokens "tok-2"));
              RWriteFile None; RRenewToken None]);
      [reflexivity | reflexivity | apply surjective_pairing
      | vm_compute; reflexivity].
  - apply (first_call_of_run parse hk "tok-R"
             (init [RCtxDone true; RStopRenewToken (Some "gone")])
             r2.1 r2.2 (EStopRenewToken "" (Some "gone")) true
             [RStopRenewToken (Some "gone")]);
      [reflexivity | reflexivity | apply surjective_pairing
      | vm_compute; reflexivity].
Defined.

Lemma reactions_need_new_tokens_witness :
  let r := run parse (hook "signal" "SIGHUP") "" (init S3) in
  reacted r.2 = reacted (init S3)
  \/ reacted r.2 - reacted (init S3) < derived r.2 - derived (init S3).
Proof.
  intros r.
  apply (reactions_need_new_tokens parse (hook "signal" "SIGHUP") (init S3)
           r.1 r.2).
  apply surjective_pairing.
Defined.

End DerivationScenarioFacts.
